(** * easyTCP2: the server-side [Client] session (easyTCP2/Server/Client.py)

    A shallow embedding of [Client.register], [handshake], [listen],
    [process], [raise_error_code], [close], [kill] and [_register], with the
    effects of the coroutines made explicit: a [world] is threaded through
    every call and every observable action is appended to a trace. *)

From stdpp Require Import gmap strings list fin_maps pretty.
From Stdlib Require Import ZArith Lia Ascii.

Open Scope string_scope.
Open Scope list_scope.
Open Scope Z_scope.

(** ** Python values and exceptions *)

(** The values a message field or a hook result can hold. *)
Inductive pyval :=
| PNone
| PBool (b : bool)
| PInt (z : Z)
| PStr (s : string).

(** Python's [==] on these values: [bool] is a subclass of [int]. *)
Definition py_eqb (a b : pyval) : bool :=
  match a, b with
  | PNone, PNone => true
  | PBool x, PBool y => Bool.eqb x y
  | PBool x, PInt z | PInt z, PBool x => Z.eqb (if x then 1 else 0) z
  | PInt x, PInt y => Z.eqb x y
  | PStr x, PStr y => String.eqb x y
  | _, _ => false
  end.

(** [v in xs] for a list (or set) of such values. *)
Definition py_in (v : pyval) (xs : list pyval) : bool :=
  existsb (py_eqb v) xs.

(** The subclasses of [Exception] that occur.  [OtherError] stands for any
    further subclass of [Exception] unrelated to the named ones;
    [ProtocolViolation] is what [Protocol.expected] raises on a mismatch. *)
Inductive exn :=
| ValueError
| ConnectionResetError
| TimeoutError
| KeyError
| TypeError
| AttributeError
| HandshakeError
| Recved404Error
| ProtocolViolation
| OtherError (name : string).

Global Instance exn_eq_dec : EqDecision exn.
Proof. solve_decision. Defined.

Global Instance pyval_eq_dec : EqDecision pyval.
Proof. solve_decision. Defined.

(** What [error_codes.get(code, -1)] evaluates to: an exception class of the
    table, or an integer. *)
Inductive errval :=
| EClass (c : exn)
| EInt (z : Z).

Global Instance errval_eq_dec : EqDecision errval.
Proof. solve_decision. Defined.

(** [raise error]: raising something that is not an exception is itself a
    [TypeError]. *)
Definition py_raise (error : errval) : exn :=
  match error with
  | EClass c => c
  | EInt _ => TypeError
  end.

(** [str.lower].  A [str] is held as its UTF-8 bytes.  The capitals of
    ASCII go to their small letters, and so does KELVIN SIGN (U+212A, the
    bytes E2 84 AA), which is the one character outside ASCII whose lower
    case is an ASCII letter ([k]).  Every other character is left as it is:
    its lower case has a character outside ASCII, as it has itself, so that
    comparing the result with an ASCII literal such as ['okay'] gives what
    Python gives. *)
Definition lower_ascii (c : ascii) : ascii :=
  let n := nat_of_ascii c in
  if (Nat.leb 65 n && Nat.leb n 90)%bool then ascii_of_nat (n + 32) else c.

Definition is_kelvin_sign (c1 c2 c3 : ascii) : bool :=
  (Nat.eqb (nat_of_ascii c1) 226 && Nat.eqb (nat_of_ascii c2) 132
   && Nat.eqb (nat_of_ascii c3) 170)%bool.

Fixpoint lower (s : string) : string :=
  match s with
  | EmptyString => EmptyString
  | String c s1 =>
      match s1 with
      | String c2 (String c3 s3) =>
          if is_kelvin_sign c c2 c3
          then String (ascii_of_nat 107) (lower s3)
          else String (lower_ascii c) (lower s1)
      | _ => String (lower_ascii c) (lower s1)
      end
  end.

(** ** Outcomes of a coroutine *)

(** A coroutine returns, raises, or stays suspended for ever ([Pending]:
    an [await] that nothing ever resolves). *)
Inductive outcome (A : Type) :=
| Ret (a : A)
| Raise (e : exn)
| Pending.
Arguments Ret {A} a.
Arguments Raise {A} e.
Arguments Pending {A}.

(** ** The session, its server and the trace *)

Abbreviation fields := (gmap string pyval).

(** What becomes of the call [f(server=..., client=..., **data)]: the call
    does not bind ([NotEntered]: a field that is no parameter of [f], a
    parameter without a field, or an [f] that cannot be called; Python
    raises [TypeError] before the body of [f] runs), or [f] is entered and
    the awaited call has an outcome. *)
Inductive call_result :=
| NotEntered
| Entered (r : outcome pyval).

(** An attribute of [server.Request] as [process] uses it: what calling it
    with the message's fields does. *)
Abbreviation handler := (fields -> call_result).

(** The hooks of [ServerClientDecorators], by name: ['join'], ['left'] and
    ['error'] with its [error=] argument. *)
Inductive hook_call :=
| HookJoin
| HookLeft
| HookError (error : errval).

(** What [loop.create_task] is given. *)
Inductive task :=
| TaskProcess (method : string) (data : fields)
| TaskHook (h : hook_call).

(** The four log lines of the module.  Two of them format the session
    itself with [%d]; the conversion belongs to the base classes, which are
    not in this file, and is taken to yield [id], as [__str__] does. *)
Inductive log_record :=
| LogLeft (id : Z)
| LogRequested (id : Z) (method : string)
| LogRaised (id : Z) (error : errval)
| LogRegistered (addr : string) (id : Z).

Inductive event :=
| EvSend (method : string) (kw : fields)
| EvWriterClose
| EvGroupRemove (group : string) (id : Z)
| EvLog (r : log_record)
| EvCreateTask (t : task)
| EvAddClient (id : Z)
| EvCallHook (h : hook_call)
| EvInvoke (method : string) (client : Z) (data : fields).

(** What the peer puts on the wire next: a framed message or a failure of
    [recv], arriving [nat] time units after the previous one. *)
Inductive recv_item :=
| RMsg (method : string) (data : fields)
| RFail (e : exn).

(** The attributes set by [Client.__init__]. *)
Record client := Client {
  id : Z;
  addr : string;
  is_superuser : bool;
  groups : list string
}.

(** The attributes of the server the session reads.  [Request] holds the
    handlers registered under their names; [Request_builtin] holds what the
    object [server.Request] has by itself, before any handler is
    registered: the attributes of every Python object ([__class__],
    [__doc__], ...) and those of its class. *)
Record server := Server {
  version : pyval;
  supported_versions : list pyval;
  Request : gmap string handler;
  Request_builtin : gmap string handler;
  clients : list Z
}.

Record world := World {
  self : client;
  srv : server;
  group_members : gmap string (list Z);
  error_hook : option (errval -> pyval);
  writer_open : bool;
  inbox : list (nat * recv_item);
  send_faults : list (option exn);
  now : nat;
  deadline : option nat;
  trace : list event
}.

Definition emit (e : event) (w : world) : world :=
  World (self w) (srv w) (group_members w) (error_hook w) (writer_open w)
        (inbox w) (send_faults w) (now w) (deadline w) (trace w ++ [e]).

Definition set_srv (s : server) (w : world) : world :=
  World (self w) s (group_members w) (error_hook w) (writer_open w)
        (inbox w) (send_faults w) (now w) (deadline w) (trace w).

Definition set_group_members (g : gmap string (list Z)) (w : world) : world :=
  World (self w) (srv w) g (error_hook w) (writer_open w)
        (inbox w) (send_faults w) (now w) (deadline w) (trace w).

Definition set_writer_open (b : bool) (w : world) : world :=
  World (self w) (srv w) (group_members w) (error_hook w) b
        (inbox w) (send_faults w) (now w) (deadline w) (trace w).

Definition set_inbox (l : list (nat * recv_item)) (w : world) : world :=
  World (self w) (srv w) (group_members w) (error_hook w) (writer_open w)
        l (send_faults w) (now w) (deadline w) (trace w).

Definition set_send_faults (l : list (option exn)) (w : world) : world :=
  World (self w) (srv w) (group_members w) (error_hook w) (writer_open w)
        (inbox w) l (now w) (deadline w) (trace w).

Definition set_now (t : nat) (w : world) : world :=
  World (self w) (srv w) (group_members w) (error_hook w) (writer_open w)
        (inbox w) (send_faults w) t (deadline w) (trace w).

Definition set_deadline (d : option nat) (w : world) : world :=
  World (self w) (srv w) (group_members w) (error_hook w) (writer_open w)
        (inbox w) (send_faults w) (now w) d (trace w).

(** ** The coroutine monad: state and exceptions *)

Definition M (A : Type) : Type := world -> outcome A * world.

Definition ret {A} (a : A) : M A := fun w => (Ret a, w).

Definition raise {A} (e : exn) : M A := fun w => (Raise e, w).

Definition bind {A B} (m : M A) (k : A -> M B) : M B :=
  fun w =>
    match m w with
    | (Ret a, w') => k a w'
    | (Raise e, w') => (Raise e, w')
    | (Pending, w') => (Pending, w')
    end.

Notation "'do' x <- m ; k" := (bind m (fun x => k))
  (at level 10, x name, m at level 100, k at level 200).
Notation "m ;; k" := (bind m (fun _ => k))
  (at level 100, k at level 200, right associativity).

Definition gets {A} (f : world -> A) : M A := fun w => (Ret (f w), w).

Definition modify (f : world -> world) : M unit := fun w => (Ret tt, f w).

Definition log (r : log_record) : M unit := modify (emit (EvLog r)).

(** [self.loop.create_task(coro)]: the task is scheduled and the caller goes
    on without waiting for it. *)
Definition create_task (t : task) : M unit := modify (emit (EvCreateTask t)).

(** ** The collaborators that live outside Client.py *)

(** Modelled from the spec: [Protocol.send] (easyTCP2/Core) is not part of
    this file.  It writes one message; on a closed transport, or when the
    link fails (the next entry of [send_faults]), it raises. *)
Definition send (method : string) (kw : fields) : M unit :=
  fun w =>
    if negb (writer_open w) then (Raise ConnectionResetError, w)
    else match send_faults w with
         | Some e :: rest => (Raise e, set_send_faults rest w)
         | None :: rest => (Ret tt, emit (EvSend method kw) (set_send_faults rest w))
         | [] => (Ret tt, emit (EvSend method kw) w)
         end.

(** Modelled from the spec: [Protocol.recv] (easyTCP2/Core) is not part of
    this file.  It waits for the next message of the peer and returns
    [(method, fields)], or fails with the transport's failure.  Under a
    deadline (see [wait_for]) the wait is cut off when the deadline passes;
    without one, a silent peer leaves the coroutine suspended. *)
Definition recv : M (string * fields) :=
  fun w =>
    if negb (writer_open w) then (Raise ConnectionResetError, w)
    else match inbox w with
         | [] =>
             match deadline w with
             | Some d => (Raise TimeoutError, set_now (Nat.max (now w) d) w)
             | None => (Pending, w)
             end
         | (dt, item) :: rest =>
             let arrival := (now w + dt)%nat in
             let late := match deadline w with
                         | Some d => Nat.ltb d arrival
                         | None => false
                         end in
             if late then (Raise TimeoutError, set_now (Nat.max (now w) (default 0%nat (deadline w))) w)
             else
               let w' := set_now arrival (set_inbox rest w) in
               match item with
               | RMsg method data => (Ret (method, data), w')
               | RFail e => (Raise e, w')
               end
         end.

(** Modelled from the spec: [Protocol.expected] (easyTCP2/Core) calls [recv]
    and fails when the method name is not the expected one. *)
Definition expected (method : string) : M (string * fields) :=
  do r <- recv;
  if String.eqb (fst r) method then ret r else raise ProtocolViolation.

(** [asyncio.wait_for(coro, timeout)]: the coroutine runs under a deadline
    [timeout] time units from now; when the deadline passes first the call
    raises [TimeoutError]. *)
Definition wait_for {A} (coro : M A) (timeout : nat) : M A :=
  fun w =>
    let (r, w') := coro (set_deadline (Some (now w + timeout)%nat) w) in
    (match r with Pending => Raise TimeoutError | _ => r end,
     set_deadline (deadline w) w').

(** Modelled from the spec: [ServerClientDecorators.call] (easyTCP2/Core) is
    not part of this file.  [call('error', error=...)] runs the registered
    error hook and returns what it returns, and returns [-1] when no hook
    was registered. *)
Definition call_error (error : errval) : M pyval :=
  modify (emit (EvCallHook (HookError error)));;
  do h <- gets error_hook;
  ret (match h with Some f => f error | None => PInt (-1) end).

(** Modelled from the spec: [Group.remove] is not part of this file.  It
    takes the session out of the group's membership; removing a session
    that is not a member changes nothing.  Sessions compare by [id]
    ([Client.__eq__]).  Whether it also edits the session's own list of
    groups the spec does not settle: here it does not, and [kill_with]
    below states the body of [kill] for any [remove]. *)
Definition remove_member (c : Z) (members : list Z) : list Z :=
  filter (fun x => x ≠ c) members.

Definition Group_remove (group : string) : M unit :=
  do c <- gets (fun w => id (self w));
  modify (fun w =>
    emit (EvGroupRemove group c)
         (set_group_members (alter (remove_member c) group (group_members w)) w)).

(** Modelled from the spec: [Server.add_client] is not part of this file.
    It enters the session in the server's client registry. *)
Definition add_client : M unit :=
  do c <- gets (fun w => id (self w));
  modify (fun w =>
    let s := srv w in
    emit (EvAddClient c)
         (set_srv (Server (version s) (supported_versions s) (Request s)
                          (Request_builtin s)
                          (clients s ++ [c])) w)).

(** [asyncio.wait(fs)]: an empty [fs] is refused with [ValueError]; else
    every awaitable runs to its end, and a failure of one stays in its
    future and is not raised to the caller. *)
Fixpoint run_all (fs : list (M unit)) : M unit :=
  match fs with
  | [] => ret tt
  | f :: rest =>
      fun w =>
        match f w with
        | (Pending, w') => (Pending, w')
        | (_, w') => run_all rest w'
        end
  end.

Definition asyncio_wait (fs : list (M unit)) : M unit :=
  match fs with
  | [] => raise ValueError
  | _ => run_all fs
  end.

(** [d[key]] on a dict. *)
Definition getitem (d : fields) (key : string) : M pyval :=
  match d !! key with
  | Some v => ret v
  | None => raise KeyError
  end.

(** [v.lower()]: only [str] has the method. *)
Definition str_lower (v : pyval) : M pyval :=
  match v with
  | PStr s => ret (PStr (lower s))
  | _ => raise AttributeError
  end.

(** [await f(server=..., client=..., **data)]: a name given twice is a
    [TypeError] raised at the call, whatever [f] is; so is a call that does
    not bind.  Only then is [f] entered. *)
Definition call_handler (method : string) (f : handler) (data : fields) : M pyval :=
  if bool_decide (is_Some (data !! "server") \/ is_Some (data !! "client"))
  then raise TypeError
  else
    match f data with
    | NotEntered => raise TypeError
    | Entered r =>
        do c <- gets (fun w => id (self w));
        modify (emit (EvInvoke method c data));;
        fun w => (r, w)
    end.

(** ** Client *)

(** [Client.error_codes]. *)
Definition error_codes : gmap Z exn :=
  {[ 2 := HandshakeError; 6 := Recved404Error ]}.

(** [self.error_codes.get(code, -1)]. *)
Definition resolve_error (code : Z) : errval :=
  match error_codes !! code with
  | Some c => EClass c
  | None => EInt (-1)
  end.

Definition raise_error_code (code : Z) : M unit :=
  let error := resolve_error code in
  do code' <- call_error error;
  if py_eqb code' (PInt (-1)) then
    (do c <- gets (fun w => id (self w));
     log (LogRaised c error);;
     raise (py_raise error))
  else ret tt.

Definition close : M unit :=
  modify (fun w => emit EvWriterClose (set_writer_open false w)).

Definition kill : M unit :=
  close;;
  do gs <- gets (fun w => groups (self w));
  asyncio_wait (map Group_remove gs);;
  do c <- gets (fun w => id (self w));
  log (LogLeft c);;
  create_task (TaskHook HookLeft).

Definition handshake : M unit :=
  send "HANDSHAKE" ∅;;
  expected "HANDSHAKE";;
  do v <- gets (fun w => version (srv w));
  send "PHASE 1" {[ "server_version" := v ]};;
  do r <- expected "PHASE 1";
  let code := snd r in
  do not_okay <- (do s <- getitem code "status";
                  do l <- str_lower s;
                  ret (negb (py_eqb l (PStr "okay"))));
  do reject <- (if not_okay
                then (do v <- getitem code "version";
                      do sup <- gets (fun w => supported_versions (srv w));
                      ret (negb (py_in v sup)))
                else ret false);
  if reject then (send "BREAK" ∅;; raise ValueError)
  else send "HANDSHAKE" ∅.

(** [getattr(self.server.Request, method)], and [None] where [hasattr]
    is false: a handler registered under the name, or else an attribute the
    object has by itself. *)
Definition getattr_Request (s : server) (method : string) : option handler :=
  match Request s !! method with
  | Some f => Some f
  | None => Request_builtin s !! method
  end.

(** [process]: look the method up on [server.Request] and call it. *)
Definition process (method : string) (data : fields) : M pyval :=
  do s <- gets (fun w => srv w);
  match getattr_Request s method with
  | Some f =>
      do c <- gets (fun w => id (self w));
      log (LogRequested c method);;
      call_handler method f data
  | None => raise_error_code 6;; ret PNone
  end.

(** [except (ValueError, ConnectionResetError)] in [listen]. *)
Definition caught_by_listen (e : exn) : bool :=
  match e with
  | ValueError | ConnectionResetError => true
  | _ => false
  end.

(** The [while True] loop of [listen]: it returns when it is left by
    [break].  Every iteration that goes on takes a message off the inbox, so
    the fuel [listen] gives, one more than the messages still to come, is
    never used up ([listen_loop_fuel]). *)
Fixpoint listen_loop (fuel : nat) : M unit :=
  fun w =>
    match fuel with
    | O => (Pending, w)
    | S fuel' =>
        match recv w with
        | (Ret (method, data), w') =>
            listen_loop fuel' (emit (EvCreateTask (TaskProcess method data)) w')
        | (Raise e, w') =>
            if caught_by_listen e then (Ret tt, w') else (Raise e, w')
        | (Pending, w') => (Pending, w')
        end
    end.

Definition listen : M unit :=
  fun w => (listen_loop (S (length (inbox w)));; kill) w.

Definition _register : M unit :=
  add_client;;
  do a <- gets (fun w => addr (self w));
  do c <- gets (fun w => id (self w));
  log (LogRegistered a c);;
  create_task (TaskHook HookJoin).

Definition register : M unit :=
  fun w =>
    match wait_for handshake 20 w with
    | (Ret _, w') => (_register;; listen) w'
    | (Raise _, w') => raise_error_code 2 w'
    | (Pending, w') => (Pending, w')
    end.

(** ** Vocabulary of the statements *)

(** [extends P w w']: [w'] continues the trace of [w] with events that all
    satisfy [P]. *)
Definition extends (P : event -> Prop) (w w' : world) : Prop :=
  exists evs, trace w' = trace w ++ evs /\ Forall P evs.

(** [only P m]: whatever happens, [m] emits events satisfying [P] only. *)
Definition only {A} (P : event -> Prop) (m : M A) : Prop :=
  forall w, extends P w (snd (m w)).

(** [preserves f m]: [m] leaves the component [f] of the world alone. *)
Definition preserves {A B} (f : world -> B) (m : M A) : Prop :=
  forall w, f (snd (m w)) = f w.

(** What no transport operation touches: the session's attributes, the
    server, the groups and the registered hook. *)
Definition static (w : world) :=
  (self w, srv w, group_members w, error_hook w).

(** How often an event of a kind occurs in a trace. *)
Definition occurrences (p : event -> bool) (t : list event) : nat :=
  length (filter (fun e => p e = true) t).

(** The kinds of events the statements count. *)
Definition is_send (e : event) : bool :=
  match e with EvSend _ _ => true | _ => false end.

Definition is_break (e : event) : bool :=
  match e with EvSend method _ => String.eqb method "BREAK" | _ => false end.

Definition is_add_client (e : event) : bool :=
  match e with EvAddClient _ => true | _ => false end.

Definition is_join (e : event) : bool :=
  match e with EvCreateTask (TaskHook HookJoin) => true | _ => false end.

Definition is_left (e : event) : bool :=
  match e with EvCreateTask (TaskHook HookLeft) => true | _ => false end.

Definition is_dispatch (e : event) : bool :=
  match e with EvCreateTask (TaskProcess _ _) => true | _ => false end.

Definition is_writer_close (e : event) : bool :=
  match e with EvWriterClose => true | _ => false end.

Definition is_group_remove (e : event) : bool :=
  match e with EvGroupRemove _ _ => true | _ => false end.

Definition is_invoke (e : event) : bool :=
  match e with EvInvoke _ _ _ => true | _ => false end.

Definition is_left_log (e : event) : bool :=
  match e with EvLog (LogLeft _) => true | _ => false end.

Definition is_error_call (e : event) : bool :=
  match e with EvCallHook (HookError _) => true | _ => false end.

(** The events of the handshake and of error signaling: what a session that
    was never admitted can leave in the trace. *)
Definition unadmitted_event (e : event) : Prop :=
  match e with
  | EvSend _ _ | EvCallHook (HookError _) | EvLog (LogRaised _ _) => True
  | _ => False
  end.

(** The events of [kill]. *)
Definition teardown_event (e : event) : Prop :=
  match e with
  | EvWriterClose | EvGroupRemove _ _ | EvLog (LogLeft _)
  | EvCreateTask (TaskHook HookLeft) => True
  | _ => False
  end.

(** The events of [listen]: the tasks it creates and its final [kill]. *)
Definition serving_event (e : event) : Prop :=
  match e with
  | EvCreateTask (TaskProcess _ _) => True
  | _ => teardown_event e
  end.

(** The test of [handshake] on the PHASE 1 reply,
    [not(status.lower() == 'okay') and not(version in supported_versions)],
    for a [str] status: [Some true] when the peer is turned away.  [and]
    does not look at [code['version']] when its left operand is false; when
    it does and the field is missing the test raises [KeyError] ([None]). *)
Definition version_check (sup : list pyval) (status : string) (ver : option pyval)
  : option bool :=
  if String.eqb (lower status) "okay" then Some false
  else match ver with
       | Some v => Some (negb (py_in v sup))
       | None => None
       end.

(** What the server has sent when it waits for the PHASE 1 reply. *)
Definition greeting (w : world) : list event :=
  [EvSend "HANDSHAKE" ∅;
   EvSend "PHASE 1" {[ "server_version" := version (srv w) ]}].

(** What [call('error', error=error)] returns in world [w]. *)
Definition hook_result (w : world) (error : errval) : pyval :=
  match error_hook w with
  | Some f => f error
  | None => PInt (-1)
  end.

(** [loop_reaches w w']: starting the [while True] loop of [listen] in [w],
    some iteration begins in [w']: every [recv] before it returned a
    message, and a [process] task was created for each. *)
Inductive loop_reaches : world -> world -> Prop :=
| reaches_start w : loop_reaches w w
| reaches_next w method data w1 w2 :
    recv w = (Ret (method, data), w1) ->
    loop_reaches (emit (EvCreateTask (TaskProcess method data)) w1) w2 ->
    loop_reaches w w2.

(** The session is in no group's membership. *)
Definition member_of_no_group (w : world) : Prop :=
  forall g members, group_members w !! g = Some members -> id (self w) ∉ members.

(** Every group the session is a member of is in its [groups] list. *)
Definition groups_listed (w : world) : Prop :=
  forall g members,
    group_members w !! g = Some members -> id (self w) ∈ members ->
    g ∈ groups (self w).

(** The world after awaiting [Group.remove] for each group of [gs]. *)
Definition after_removals (gs : list string) (w : world) : world :=
  foldl (fun w' g => snd (Group_remove g w')) w gs.

(** ** Sample sessions *)

(** The names every Python object answers [hasattr] with true for. *)
Definition object_attributes : list string :=
  ["__class__"; "__delattr__"; "__dict__"; "__dir__"; "__doc__"; "__eq__";
   "__format__"; "__ge__"; "__getattribute__"; "__gt__"; "__hash__";
   "__init__"; "__init_subclass__"; "__le__"; "__lt__"; "__module__";
   "__ne__"; "__new__"; "__reduce__"; "__reduce_ex__"; "__repr__";
   "__setattr__"; "__sizeof__"; "__str__"; "__subclasshook__";
   "__weakref__"].

(** These attributes of a plain object: none of them can be called with the
    keywords [server] and [client]. *)
Definition object_builtin : gmap string handler :=
  list_to_map (map (fun name => (name, fun _ : fields => NotEntered))
                   object_attributes).

(** [async def foo(server, client, x): return 0]: the call binds when the
    message has the field [x] and no other. *)
Definition sample_foo : handler :=
  fun data =>
    match data !! "x" with
    | Some _ => if Nat.eqb (size data) 1 then Entered (Ret (PInt 0)) else NotEntered
    | None => NotEntered
    end.

Definition sample_server : server :=
  Server (PStr "1.0") [PStr "1.0"] {[ "foo" := sample_foo ]} object_builtin [].

(** A session of [sample_server] with the given groups and peer. *)
Definition sample_world (gs : list string) (peer : list (nat * recv_item)) : world :=
  World (Client 1 "10.0.0.5" false gs) sample_server
        {[ "lobby" := [1; 7] ]} None true peer [] 0%nat None [].

Definition phase1_reply (status ver : string) : fields :=
  {[ "status" := PStr status; "version" := PStr ver ]}.

(** A peer that answers with an okay status and a version the server does
    not support. *)
Definition unsupported_peer : list (nat * recv_item) :=
  [(1%nat, RMsg "HANDSHAKE" ∅);
   (1%nat, RMsg "PHASE 1" (phase1_reply "okay" "9.9"))].

(** A peer that completes the handshake, sends a request for a registered
    handler, one for an unknown method, a second request for the registered
    handler, and then drops the connection. *)
Definition serving_peer : list (nat * recv_item) :=
  [(1%nat, RMsg "HANDSHAKE" ∅);
   (1%nat, RMsg "PHASE 1" (phase1_reply "okay" "1.0"));
   (5%nat, RMsg "foo" {[ "x" := PStr "y" ]});
   (5%nat, RMsg "bar" ∅);
   (5%nat, RMsg "foo" {[ "x" := PStr "z" ]});
   (5%nat, RFail ConnectionResetError)].

(** A peer that answers the greeting with another method. *)
Definition wrong_echo_peer : list (nat * recv_item) :=
  [(1%nat, RMsg "HELLO" ∅)].

(** A peer whose echo comes after the deadline. *)
Definition late_peer : list (nat * recv_item) :=
  [(21%nat, RMsg "HANDSHAKE" ∅)].

(** ** Construction, comparison and printing of a session *)

(** [Client.__init__(reader, writer, server)]; [peername] is what
    [writer.get_extra_info('peername')] returns. *)
Definition __init__ (peername : string) : client :=
  Client 1 peername false [].

(** The right operand of a comparison: a plain value or another session. *)
Inductive operand :=
| OVal (v : pyval)
| OClient (c : client).

Inductive cmp_op := OpEq | OpLt | OpGt | OpLe | OpGe.

Definition cmp_Z (op : cmp_op) (x y : Z) : bool :=
  match op with
  | OpEq => Z.eqb x y
  | OpLt => Z.ltb x y
  | OpGt => Z.ltb y x
  | OpLe => Z.leb x y
  | OpGe => Z.leb y x
  end.

(** The method Python tries on the right operand when the left one answers
    [NotImplemented]. *)
Definition reflected (op : cmp_op) : cmp_op :=
  match op with
  | OpEq => OpEq
  | OpLt => OpGt
  | OpGt => OpLt
  | OpLe => OpGe
  | OpGe => OpLe
  end.

(** [int.__op__(z, v)]; [None] stands for [NotImplemented]. *)
Definition int_richcmp (op : cmp_op) (z : Z) (v : pyval) : option bool :=
  match v with
  | PInt y => Some (cmp_Z op z y)
  | PBool b => Some (cmp_Z op z (if b then 1 else 0))
  | PNone | PStr _ => None
  end.

(** [bool(self.id op v)] for a plain value [v].  When [int] answers
    [NotImplemented], so does the reflected method of [str] and of [None]:
    [==] then compares identities, which differ, and an ordering raises
    [TypeError]. *)
Definition compare_value (op : cmp_op) (self : client) (v : pyval) : exn + bool :=
  match int_richcmp op (id self) v with
  | Some b => inr b
  | None =>
      match op with
      | OpEq => inr false
      | _ => inl TypeError
      end
  end.

(** [bool(self.id op other)].  For another session [int] answers
    [NotImplemented] and Python calls the reflected method of that session
    with [self.id] as its operand. *)
Definition compare (op : cmp_op) (self : client) (other : operand) : exn + bool :=
  match other with
  | OVal v => compare_value op self v
  | OClient c => compare_value (reflected op) c (PInt (id self))
  end.

Definition __eq__ := compare OpEq.
Definition __gt__ := compare OpGt.
Definition __lt__ := compare OpLt.
Definition __ge__ := compare OpGe.
Definition __le__ := compare OpLe.

(** [str(self.id)]: the decimal numeral. *)
Definition __str__ (self : client) : string := pretty (id self).

(** ** More vocabulary *)

(** The peer's messages [(delay, (method, fields))] as items of the inbox. *)
Definition incoming (msgs : list (nat * (string * fields))) : list (nat * recv_item) :=
  map (fun m => (fst m, RMsg (fst (snd m)) (snd (snd m)))) msgs.

(** The tasks [listen] creates for these messages. *)
Definition dispatched (msgs : list (nat * (string * fields))) : list event :=
  map (fun m => EvCreateTask (TaskProcess (fst (snd m)) (snd (snd m)))) msgs.

(** The world in which the session's [groups] attribute holds [gs]. *)
Definition set_groups (gs : list string) (w : world) : world :=
  World (Client (id (self w)) (addr (self w)) (is_superuser (self w)) gs)
        (srv w) (group_members w) (error_hook w) (writer_open w)
        (inbox w) (send_faults w) (now w) (deadline w) (trace w).

(** What [kill] leaves of a group's members. *)
Definition members_after_kill (w : world) (g : string) : option (list Z) :=
  if bool_decide (g ∈ groups (self w))
  then remove_member (id (self w)) <$> group_members w !! g
  else group_members w !! g.

(** An error hook that takes every error on itself. *)
Definition handling_hook : errval -> pyval := fun _ => PNone.

Definition with_hook (h : errval -> pyval) (w : world) : world :=
  World (self w) (srv w) (group_members w) (Some h) (writer_open w)
        (inbox w) (send_faults w) (now w) (deadline w) (trace w).

(** A peer whose second answer comes after the deadline of the exchange. *)
Definition slow_peer : list (nat * recv_item) :=
  [(15%nat, RMsg "HANDSHAKE" ∅);
   (6%nat, RMsg "PHASE 1" (phase1_reply "okay" "1.0"))].

(** Replies without a status, with a status that is no string, and with a
    refused status and no version. *)
Definition no_status_peer : list (nat * recv_item) :=
  [(1%nat, RMsg "HANDSHAKE" ∅); (1%nat, RMsg "PHASE 1" {[ "version" := PStr "1.0" ]})].

Definition int_status_peer : list (nat * recv_item) :=
  [(1%nat, RMsg "HANDSHAKE" ∅); (1%nat, RMsg "PHASE 1" {[ "status" := PInt 1 ]})].

Definition no_version_peer : list (nat * recv_item) :=
  [(1%nat, RMsg "HANDSHAKE" ∅); (1%nat, RMsg "PHASE 1" {[ "status" := PStr "no" ]})].

Definition shouting_peer : list (nat * recv_item) :=
  [(1%nat, RMsg "HANDSHAKE" ∅); (1%nat, RMsg "PHASE 1" {[ "status" := PStr "OKAY" ]})].

(** A session of a server whose only handler fails. *)
Definition failing_handler_world : world :=
  World (Client 4 "10.0.0.9" false [])
        (Server (PStr "1.0") [PStr "1.0"]
                {[ "div" := fun _ : fields => Entered (Raise (OtherError "ZeroDivisionError")) ]}
                object_builtin [])
        ∅ None true [] [] 0%nat None [].

(** The body of [Client.kill] with the [remove] coroutine of the group
    objects left open: [kill] awaits whatever the objects of [self.groups]
    have under that name.  [kill] is [kill_with Group_remove]. *)
Definition kill_with (remove : string -> M unit) : M unit :=
  close;;
  do gs <- gets (fun w => groups (self w));
  asyncio_wait (map remove gs);;
  do c <- gets (fun w => id (self w));
  log (LogLeft c);;
  create_task (TaskHook HookLeft).

(** Modelled from the spec: [Group.remove] is not part of this file, and
    the spec has the session's own list of groups mutated on the path of
    [kill()].  This [remove] does what [Group_remove] does and also takes
    the group off the list of the session. *)
Definition Group_remove_unlisting (group : string) : M unit :=
  Group_remove group;;
  modify (fun w =>
    set_groups (filter (fun g => g ≠ group) (groups (self w))) w).

(** The status OKAY written with KELVIN SIGN for its second letter, in
    UTF-8. *)
Definition kelvin_okay : string :=
  String (ascii_of_nat 79)
    (String (ascii_of_nat 226) (String (ascii_of_nat 132)
       (String (ascii_of_nat 170) "AY"))).

(** ** Reasoning about the monad *)

Lemma bind_Ret {A B} (m : M A) (k : A -> M B) w a w' :
  m w = (Ret a, w') -> bind m k w = k a w'.
Proof. intros H. unfold bind. now rewrite H. Qed.

Lemma bind_Raise {A B} (m : M A) (k : A -> M B) w e w' :
  m w = (Raise e, w') -> bind m k w = (Raise e, w').
Proof. intros H. unfold bind. now rewrite H. Qed.

Lemma bind_Pending {A B} (m : M A) (k : A -> M B) w w' :
  m w = (Pending, w') -> bind m k w = (Pending, w').
Proof. intros H. unfold bind. now rewrite H. Qed.

Lemma extends_refl P w : extends P w w.
Proof. exists []. split; [now rewrite app_nil_r | constructor]. Qed.

Lemma extends_trans P w1 w2 w3 :
  extends P w1 w2 -> extends P w2 w3 -> extends P w1 w3.
Proof.
  intros (e1 & H1 & F1) (e2 & H2 & F2). exists (e1 ++ e2). split.
  - now rewrite H2, H1, app_assoc.
  - now apply Forall_app.
Qed.

Lemma extends_emit (P : event -> Prop) e w : P e -> extends P w (emit e w).
Proof. intros H. exists [e]. split; [reflexivity | now repeat constructor]. Qed.

Lemma extends_same_trace (P : event -> Prop) w w' :
  trace w' = trace w -> extends P w w'.
Proof. intros H. exists []. split; [now rewrite app_nil_r | constructor]. Qed.

Lemma extends_weaken (P Q : event -> Prop) w w' :
  (forall e, P e -> Q e) -> extends P w w' -> extends Q w w'.
Proof.
  intros HPQ (evs & H & F). exists evs. split; [exact H |].
  eapply Forall_impl; eauto.
Qed.

Lemma only_weaken {A} (P Q : event -> Prop) (m : M A) :
  (forall e, P e -> Q e) -> only P m -> only Q m.
Proof. intros HPQ H w. eapply extends_weaken; eauto. Qed.

Lemma only_bind {A B} P (m : M A) (k : A -> M B) :
  only P m -> (forall a, only P (k a)) -> only P (bind m k).
Proof.
  intros Hm Hk w. unfold bind. specialize (Hm w).
  destruct (m w) as [[a | e |] w']; simpl in *; try exact Hm.
  eapply extends_trans; [exact Hm | apply Hk].
Qed.

Lemma only_ret {A} P (a : A) : only P (ret a).
Proof. intros w. apply extends_refl. Qed.

Lemma only_raise {A} P e : only P (@raise A e).
Proof. intros w. apply extends_refl. Qed.

Lemma only_gets {A} P (f : world -> A) : only P (gets f).
Proof. intros w. apply extends_refl. Qed.

Lemma only_emit (P : event -> Prop) e : P e -> only P (modify (emit e)).
Proof. intros H w. now apply extends_emit. Qed.

Lemma preserves_bind {A B C} (f : world -> C) (m : M A) (k : A -> M B) :
  preserves f m -> (forall a, preserves f (k a)) -> preserves f (bind m k).
Proof.
  intros Hm Hk w. unfold bind. specialize (Hm w).
  destruct (m w) as [[a | e |] w']; simpl in *; try exact Hm.
  now rewrite Hk.
Qed.

Lemma preserves_ret {A C} (f : world -> C) (a : A) : preserves f (ret a).
Proof. now intros w. Qed.

Lemma preserves_raise {A C} (f : world -> C) e : preserves f (@raise A e).
Proof. now intros w. Qed.

Lemma preserves_gets {A C} (f : world -> C) (g : world -> A) : preserves f (gets g).
Proof. now intros w. Qed.

Lemma occurrences_app p t1 t2 :
  occurrences p (t1 ++ t2) = (occurrences p t1 + occurrences p t2)%nat.
Proof. unfold occurrences. now rewrite filter_app, length_app. Qed.

Lemma occurrences_nil p : occurrences p [] = 0%nat.
Proof. reflexivity. Qed.

Lemma occurrences_cons p e t :
  occurrences p (e :: t) = ((if p e then 1 else 0) + occurrences p t)%nat.
Proof.
  unfold occurrences. rewrite filter_cons.
  destruct (p e); destruct (decide _); simpl; congruence.
Qed.

Lemma occurrences_none p t :
  Forall (fun e => p e = false) t -> occurrences p t = 0%nat.
Proof.
  unfold occurrences. induction 1 as [| e t He _ IH]; [reflexivity |].
  rewrite filter_cons. destruct (decide (p e = true)); [congruence | exact IH].
Qed.

Lemma extends_occurrences (P : event -> Prop) p w w' :
  (forall e, P e -> p e = false) -> extends P w w' ->
  occurrences p (trace w') = occurrences p (trace w).
Proof.
  intros HP (evs & H & F). rewrite H, occurrences_app.
  rewrite (occurrences_none p evs); [lia |].
  eapply Forall_impl; eauto.
Qed.

Ltac count_events :=
  rewrite ?occurrences_app, ?occurrences_cons, ?occurrences_nil; simpl; lia.

(** ** The transport and the collaborators *)

Lemma send_only (P : event -> Prop) method kw :
  P (EvSend method kw) -> only P (send method kw).
Proof.
  intros HP w. unfold send.
  destruct (writer_open w); simpl; [| apply extends_refl].
  destruct (send_faults w) as [| [e |] rest]; simpl.
  - now apply extends_emit.
  - now apply extends_same_trace.
  - eapply extends_trans; [| now apply extends_emit]. now apply extends_same_trace.
Qed.

Lemma recv_same_trace w : trace (snd (recv w)) = trace w.
Proof.
  unfold recv. destruct (writer_open w); simpl; [| reflexivity].
  destruct (inbox w) as [| [dt item] rest].
  - now destruct (deadline w).
  - destruct (deadline w) as [d |]; simpl.
    + destruct (Nat.ltb d (now w + dt)); [reflexivity | now destruct item].
    + now destruct item.
Qed.

Lemma recv_only P : only P recv.
Proof. intros w. apply extends_same_trace, recv_same_trace. Qed.

Lemma expected_only P method : only P (expected method).
Proof.
  apply only_bind; [apply recv_only |]. intros r.
  destruct (String.eqb (fst r) method); [apply only_ret | apply only_raise].
Qed.

Lemma getitem_only P d key : only P (getitem d key).
Proof. unfold getitem. destruct (d !! key); [apply only_ret | apply only_raise]. Qed.

Lemma str_lower_only P v : only P (str_lower v).
Proof. destruct v; simpl; first [apply only_ret | apply only_raise]. Qed.

(** A closed writer refuses [send] and [recv]. *)
Lemma send_closed method kw w :
  writer_open w = false -> send method kw w = (Raise ConnectionResetError, w).
Proof. intros H. unfold send. now rewrite H. Qed.

Lemma recv_closed w :
  writer_open w = false -> recv w = (Raise ConnectionResetError, w).
Proof. intros H. unfold recv. now rewrite H. Qed.

Lemma send_ok method kw w :
  writer_open w = true -> send_faults w = [] ->
  send method kw w = (Ret tt, emit (EvSend method kw) w).
Proof. intros H1 H2. unfold send. now rewrite H1, H2. Qed.

Lemma recv_in_time w dt method data rest d :
  writer_open w = true -> inbox w = (dt, RMsg method data) :: rest ->
  deadline w = Some d -> (now w + dt <= d)%nat ->
  recv w = (Ret (method, data), set_now (now w + dt) (set_inbox rest w)).
Proof.
  intros H1 H2 H3 H4. unfold recv. rewrite H1, H2, H3. simpl.
  destruct (Nat.ltb_spec d (now w + dt)); [lia | reflexivity].
Qed.

(** [recv] takes at most one item off the inbox, and exactly one when it
    returns a message. *)
Lemma recv_Ret_inbox w r w' :
  recv w = (Ret r, w') -> S (length (inbox w')) = length (inbox w).
Proof.
  unfold recv. destruct (writer_open w); simpl; [| discriminate].
  destruct (inbox w) as [| [dt item] rest].
  - destruct (deadline w); discriminate.
  - destruct (match deadline w with Some d => Nat.ltb d (now w + dt) | None => false end);
      [discriminate |].
    destruct item; [| discriminate]. intros [= _ <-]. reflexivity.
Qed.

(** Under a deadline nothing stays pending. *)
Lemma wait_for_not_pending {A} (coro : M A) timeout w :
  fst (wait_for coro timeout w) <> Pending.
Proof.
  unfold wait_for. destruct (coro _) as [[a | e |] w']; simpl; discriminate.
Qed.

Lemma wait_for_only {A} P (coro : M A) timeout :
  only P coro -> only P (wait_for coro timeout).
Proof.
  intros H w. unfold wait_for.
  specialize (H (set_deadline (Some (now w + timeout)%nat) w)).
  destruct (coro _) as [r w']; simpl in *. exact H.
Qed.

Lemma send_static method kw : preserves static (send method kw).
Proof.
  intros w. unfold send. destruct (writer_open w); simpl; [| reflexivity].
  now destruct (send_faults w) as [| [e |] rest].
Qed.

Lemma recv_static : preserves static recv.
Proof.
  intros w. unfold recv. destruct (writer_open w); simpl; [| reflexivity].
  destruct (inbox w) as [| [dt item] rest].
  - now destruct (deadline w).
  - destruct (deadline w) as [d |]; simpl.
    + destruct (Nat.ltb d (now w + dt)); [reflexivity | now destruct item].
    + now destruct item.
Qed.

Lemma expected_static method : preserves static (expected method).
Proof.
  apply preserves_bind; [apply recv_static |]. intros r.
  destruct (String.eqb (fst r) method); [apply preserves_ret | apply preserves_raise].
Qed.

Lemma getitem_static d key : preserves static (getitem d key).
Proof.
  unfold getitem. destruct (d !! key); [apply preserves_ret | apply preserves_raise].
Qed.

Lemma str_lower_static v : preserves static (str_lower v).
Proof. destruct v; simpl; first [apply preserves_ret | apply preserves_raise]. Qed.

Lemma wait_for_static {A} (coro : M A) timeout :
  preserves static coro -> preserves static (wait_for coro timeout).
Proof.
  intros H w. unfold wait_for.
  specialize (H (set_deadline (Some (now w + timeout)%nat) w)).
  destruct (coro _) as [r w']; simpl in *. exact H.
Qed.

Lemma modify_emit_static e : preserves static (modify (emit e)).
Proof. now intros w. Qed.

(** ** Frame and trace facts about the methods of [Client] *)

Ltac step_only :=
  first
    [ apply only_ret | apply only_raise | apply only_gets
    | apply recv_only | apply expected_only | apply getitem_only
    | apply str_lower_only
    | apply send_only; exact I
    | apply only_emit; exact I
    | apply only_bind; [| intros ?]
    | match goal with |- only _ (if ?b then _ else _) => destruct b end ].

Ltac step_static :=
  first
    [ apply preserves_ret | apply preserves_raise | apply preserves_gets
    | apply recv_static | apply expected_static | apply getitem_static
    | apply str_lower_static | apply send_static | apply modify_emit_static
    | apply preserves_bind; [| intros ?]
    | match goal with |- preserves _ (if ?b then _ else _) => destruct b end ].

Lemma handshake_only : only unadmitted_event handshake.
Proof.
  unfold handshake. repeat step_only.
Qed.

Lemma handshake_static : preserves static handshake.
Proof.
  unfold handshake. repeat step_static.
Qed.

Lemma raise_error_code_only code : only unadmitted_event (raise_error_code code).
Proof.
  unfold raise_error_code, call_error, log. repeat step_only.
Qed.

Lemma raise_error_code_static code : preserves static (raise_error_code code).
Proof.
  unfold raise_error_code, call_error, log. repeat step_static.
Qed.

(** *** [close] and [kill] *)

Lemma close_eq w : close w = (Ret tt, emit EvWriterClose (set_writer_open false w)).
Proof. reflexivity. Qed.

Lemma Group_remove_eq g w :
  Group_remove g w =
  (Ret tt,
   emit (EvGroupRemove g (id (self w)))
        (set_group_members
           (alter (remove_member (id (self w))) g (group_members w)) w)).
Proof. reflexivity. Qed.

Lemma after_removals_cons g gs w :
  after_removals (g :: gs) w = after_removals gs (snd (Group_remove g w)).
Proof. reflexivity. Qed.

Lemma run_all_removals gs w :
  run_all (map Group_remove gs) w = (Ret tt, after_removals gs w).
Proof.
  revert w. induction gs as [| g gs IH]; intros w; [reflexivity |].
  rewrite after_removals_cons. cbn [map run_all].
  rewrite Group_remove_eq. cbn [snd]. apply IH.
Qed.

Lemma after_removals_self gs w : self (after_removals gs w) = self w.
Proof.
  revert w. induction gs as [| g gs IH]; intros w; [reflexivity |].
  rewrite after_removals_cons, IH. reflexivity.
Qed.

Lemma after_removals_srv gs w : srv (after_removals gs w) = srv w.
Proof.
  revert w. induction gs as [| g gs IH]; intros w; [reflexivity |].
  rewrite after_removals_cons, IH. reflexivity.
Qed.

Lemma after_removals_writer gs w :
  writer_open (after_removals gs w) = writer_open w.
Proof.
  revert w. induction gs as [| g gs IH]; intros w; [reflexivity |].
  rewrite after_removals_cons, IH. reflexivity.
Qed.

Lemma after_removals_trace gs w :
  trace (after_removals gs w) =
  trace w ++ map (fun g => EvGroupRemove g (id (self w))) gs.
Proof.
  revert w. induction gs as [| g gs IH]; intros w.
  - simpl. now rewrite app_nil_r.
  - rewrite after_removals_cons, IH. simpl. now rewrite <- app_assoc.
Qed.

(** A group that was asked no longer has the session; the members that are
    other sessions stay. *)
Lemma after_removals_members gs w g members :
  group_members (after_removals gs w) !! g = Some members ->
  exists before,
    group_members w !! g = Some before /\
    members = (if bool_decide (g ∈ gs)
               then remove_member (id (self w)) before else before).
Proof.
  revert w members. induction gs as [| g' gs IH]; intros w members H.
  - simpl in H. exists members. split; [exact H |].
    rewrite bool_decide_eq_false_2; [reflexivity | apply not_elem_of_nil].
  - rewrite after_removals_cons in H. apply IH in H as (mid & Hmid & ->).
    rewrite Group_remove_eq in Hmid |- *. cbn [snd] in *.
    change (group_members (emit ?e (set_group_members ?m ?x))) with m in Hmid.
    change (self (emit ?e (set_group_members ?m ?x))) with (self x).
    destruct (decide (g' = g)) as [-> | Hne].
    + rewrite lookup_alter_eq in Hmid.
      destruct (group_members w !! g) as [before |] eqn:Hb; [| discriminate].
      injection Hmid as <-. exists before. split; [reflexivity |].
      rewrite (bool_decide_eq_true_2 (g ∈ g :: gs)); [| apply list_elem_of_here].
      destruct (bool_decide (g ∈ gs)); simpl; [| reflexivity].
      unfold remove_member. rewrite list_filter_filter.
      apply list_filter_iff. tauto.
    + rewrite lookup_alter_ne in Hmid by exact Hne.
      exists mid. split; [exact Hmid |].
      destruct (bool_decide (g ∈ gs)) eqn:Hin.
      * apply bool_decide_eq_true_1 in Hin.
        rewrite bool_decide_eq_true_2; [reflexivity | now apply list_elem_of_further].
      * apply bool_decide_eq_false_1 in Hin.
        rewrite bool_decide_eq_false_2; [reflexivity |].
        intros [? | ?]%elem_of_cons; congruence.
Qed.

Lemma remove_member_not_in c members : c ∉ remove_member c members.
Proof. unfold remove_member. rewrite list_elem_of_filter. tauto. Qed.

(** [kill] on a session that has no group: [asyncio.wait] refuses the empty
    list, after the writer was closed and before anything else is done. *)
Lemma kill_no_groups w :
  groups (self w) = [] ->
  kill w = (Raise ValueError, emit EvWriterClose (set_writer_open false w)).
Proof.
  intros H. unfold kill, bind, gets. rewrite close_eq. simpl. now rewrite H.
Qed.

Lemma bind_gets {A B} (f : world -> A) (k : A -> M B) w :
  bind (gets f) k w = k (f w) w.
Proof. reflexivity. Qed.

Lemma bind_modify {B} (f : world -> world) (k : unit -> M B) w :
  bind (modify f) k w = k tt (f w).
Proof. reflexivity. Qed.

Lemma asyncio_wait_removals gs w :
  gs <> [] -> asyncio_wait (map Group_remove gs) w = (Ret tt, after_removals gs w).
Proof.
  destruct gs as [| g gs]; [congruence |]. intros _.
  unfold asyncio_wait. cbn [map]. apply (run_all_removals (g :: gs)).
Qed.

(** [kill] on a session with at least one group. *)
Lemma kill_some_groups w :
  groups (self w) <> [] ->
  kill w =
  (Ret tt,
   emit (EvCreateTask (TaskHook HookLeft))
     (emit (EvLog (LogLeft (id (self w))))
        (after_removals (groups (self w))
           (emit EvWriterClose (set_writer_open false w))))).
Proof.
  intros H. unfold kill.
  rewrite (bind_Ret _ _ _ _ _ (close_eq w)), bind_gets.
  change (groups (self (emit EvWriterClose (set_writer_open false w))))
    with (groups (self w)).
  rewrite (bind_Ret _ _ _ _ _ (asyncio_wait_removals _ _ H)), bind_gets.
  unfold log, create_task. rewrite bind_modify.
  now rewrite after_removals_self.
Qed.

Lemma kill_trace_some_groups w :
  groups (self w) <> [] ->
  trace (snd (kill w)) =
  trace w ++ [EvWriterClose]
    ++ map (fun g => EvGroupRemove g (id (self w))) (groups (self w))
    ++ [EvLog (LogLeft (id (self w))); EvCreateTask (TaskHook HookLeft)].
Proof.
  intros H. rewrite (kill_some_groups w H). cbn [snd].
  change (trace (emit ?e2 (emit ?e1 ?x))) with ((trace x ++ [e1]) ++ [e2]).
  rewrite after_removals_trace. cbn [trace emit set_writer_open self].
  now rewrite <- !app_assoc.
Qed.

Lemma filter_group_removes c gs :
  filter (fun e => is_group_remove e = true)
         (map (fun g => EvGroupRemove g c) gs)
  = map (fun g => EvGroupRemove g c) gs.
Proof.
  induction gs as [| g gs IH]; [reflexivity |].
  cbn [map]. rewrite filter_cons_True by reflexivity. now rewrite IH.
Qed.

Lemma Forall_teardown_removes c gs :
  Forall teardown_event (map (fun g => EvGroupRemove g c) gs).
Proof. induction gs; constructor; [exact I | assumption]. Qed.

Lemma occurrences_removes p c gs :
  (forall g, p (EvGroupRemove g c) = false) ->
  occurrences p (map (fun g => EvGroupRemove g c) gs) = 0%nat.
Proof.
  intros H. apply occurrences_none. induction gs; constructor; auto.
Qed.

(** A session with at least one group, all of them listed in [groups]:
    [kill] returns, the session is left in no group, the departure is
    logged once and the [left] hook is scheduled once. *)
Lemma kill_with_groups w :
  groups (self w) <> [] -> groups_listed w ->
  fst (kill w) = Ret tt /\
  member_of_no_group (snd (kill w)) /\
  writer_open (snd (kill w)) = false /\
  occurrences is_left_log (trace (snd (kill w)))
    = S (occurrences is_left_log (trace w)) /\
  occurrences is_left (trace (snd (kill w)))
    = S (occurrences is_left (trace w)).
Proof.
  intros Hne Hl. split; [now rewrite (kill_some_groups w Hne) |].
  split; [| split; [| split]].
  - rewrite (kill_some_groups w Hne). cbn [snd]. intros g members Hg.
    change (group_members (emit ?e2 (emit ?e1 ?x))) with (group_members x) in Hg.
    change (self (emit ?e2 (emit ?e1 ?x))) with (self x).
    rewrite after_removals_self. cbn [self emit set_writer_open].
    apply after_removals_members in Hg as (before & Hb & ->).
    cbn [group_members self emit set_writer_open] in *.
    destruct (bool_decide (g ∈ groups (self w))) eqn:Hin.
    + apply remove_member_not_in.
    + apply bool_decide_eq_false_1 in Hin. intros Hmem. apply Hin.
      eapply Hl; eauto.
  - rewrite (kill_some_groups w Hne). cbn [snd].
    change (writer_open (emit ?e2 (emit ?e1 ?x))) with (writer_open x).
    now rewrite after_removals_writer.
  - rewrite (kill_trace_some_groups w Hne), !occurrences_app.
    rewrite occurrences_removes by reflexivity.
    count_events.
  - rewrite (kill_trace_some_groups w Hne), !occurrences_app.
    rewrite occurrences_removes by reflexivity.
    count_events.
Qed.

(** [kill] emits teardown events only, and closes the writer exactly once
    whatever its outcome. *)
Lemma kill_only : only teardown_event kill.
Proof.
  intros w. destruct (decide (groups (self w) = [])) as [H | H].
  - rewrite (kill_no_groups w H). exists [EvWriterClose].
    split; [reflexivity | repeat constructor].
  - eexists. split; [apply (kill_trace_some_groups w H) |].
    repeat (apply Forall_app; split);
      [repeat constructor | apply Forall_teardown_removes | repeat constructor].
Qed.

Lemma kill_closes_once w :
  occurrences is_writer_close (trace (snd (kill w)))
  = S (occurrences is_writer_close (trace w)).
Proof.
  destruct (decide (groups (self w) = [])) as [H | H].
  - rewrite (kill_no_groups w H). cbn [snd trace emit].
    count_events.
  - rewrite (kill_trace_some_groups w H), !occurrences_app.
    rewrite occurrences_removes by reflexivity.
    count_events.
Qed.

(** [close] touches the writer and nothing else. *)
Lemma close_frame w :
  fst (close w) = Ret tt /\
  static (snd (close w)) = static w /\
  writer_open (snd (close w)) = false /\
  trace (snd (close w)) = trace w ++ [EvWriterClose].
Proof. now rewrite close_eq. Qed.

(** [close] is idempotent on the state of the writer. *)
Lemma close_twice w :
  writer_open (snd (close (snd (close w)))) = writer_open (snd (close w)).
Proof. reflexivity. Qed.

(** After [close], a session with at least one group is still taken out of
    its groups by [kill], and the [left] hook is scheduled once. *)
Lemma close_then_kill_with_groups w :
  groups (self w) <> [] -> groups_listed w ->
  fst ((close;; kill) w) = Ret tt /\
  member_of_no_group (snd ((close;; kill) w)) /\
  occurrences is_left (trace (snd ((close;; kill) w)))
    = S (occurrences is_left (trace w)).
Proof.
  intros Hne Hl. rewrite (bind_Ret _ _ _ _ _ (close_eq w)).
  set (w1 := emit EvWriterClose (set_writer_open false w)).
  assert (H1 : groups (self w1) <> []) by exact Hne.
  assert (H2 : groups_listed w1) by exact Hl.
  destruct (kill_with_groups w1 H1 H2) as (Hr & Hm & _ & _ & Hleft).
  repeat split; [exact Hr | exact Hm |].
  rewrite Hleft. subst w1. cbn [trace emit set_writer_open].
  count_events.
Qed.

(** ** Claims about [close] and [kill] *)

(** C2 (the code departs from the claim).  The claim promises that after
    [kill] every session, also one that belongs to no group, is in no
    group, has its departure logged and has the [left] hook fired.  On a
    session whose [groups] list is empty, [kill] closes the writer and then
    fails with [ValueError], raised by [asyncio.wait] on the empty list:
    no departure is logged and no [left] hook is scheduled.  (For a session
    with at least one group the claim holds: [kill_with_groups].) *)
Theorem kill_groupless_session_raises w :
  groups (self w) = [] ->
  fst (kill w) = Raise ValueError /\
  trace (snd (kill w)) = trace w ++ [EvWriterClose] /\
  occurrences is_left_log (trace (snd (kill w)))
    = occurrences is_left_log (trace w) /\
  occurrences is_left (trace (snd (kill w)))
    = occurrences is_left (trace w).
Proof.
  intros H. rewrite (kill_no_groups w H). cbn [fst snd trace emit].
  repeat split; count_events.
Qed.

Lemma kill_groupless_session_raises_witness :
  fst (kill (sample_world [] [])) = Raise ValueError /\
  trace (snd (kill (sample_world [] []))) = [EvWriterClose] /\
  occurrences is_left_log (trace (snd (kill (sample_world [] [])))) = 0%nat /\
  occurrences is_left (trace (snd (kill (sample_world [] [])))) = 0%nat.
Proof. apply (kill_groupless_session_raises (sample_world [] [])). reflexivity. Defined.

(** C9 (the code departs from the claim).  The claim promises that [close]
    releases the transport only, and that a later [kill] on the closed
    session still performs the group removals and fires the [left] hook
    exactly once.  The first half holds ([close_frame]); the second fails
    on a session whose [groups] list is empty: [close] followed by [kill]
    ends in [ValueError] from [asyncio.wait] on the empty list, and the
    [left] hook is never scheduled.  (With at least one group it holds:
    [close_then_kill_with_groups].) *)
Theorem close_then_kill_groupless_raises w :
  groups (self w) = [] ->
  fst ((close;; kill) w) = Raise ValueError /\
  trace (snd ((close;; kill) w)) = trace w ++ [EvWriterClose; EvWriterClose] /\
  occurrences is_left (trace (snd ((close;; kill) w)))
    = occurrences is_left (trace w).
Proof.
  intros H. rewrite (bind_Ret _ _ _ _ _ (close_eq w)).
  rewrite kill_no_groups by exact H. cbn [fst snd trace emit set_writer_open].
  rewrite <- !app_assoc. cbn [app].
  repeat split. count_events.
Qed.

Lemma close_then_kill_groupless_raises_witness :
  fst ((close;; kill) (sample_world [] [])) = Raise ValueError /\
  trace (snd ((close;; kill) (sample_world [] []))) = [EvWriterClose; EvWriterClose] /\
  occurrences is_left (trace (snd ((close;; kill) (sample_world [] [])))) = 0%nat.
Proof.
  apply (close_then_kill_groupless_raises (sample_world [] [])). reflexivity.
Defined.

(** With [Group.remove] as modelled in [Group_remove], which edits the
    membership of the group only, the session object after [kill] is what
    it was before; the removals [kill] asks for are one per entry of
    [self.groups], and everything else it does is closing the writer,
    logging and scheduling the [left] hook. *)
Theorem kill_keeps_groups_attribute w :
  groups (self (snd (kill w))) = groups (self w) /\
  self (snd (kill w)) = self w /\
  exists evs,
    trace (snd (kill w)) = trace w ++ evs /\
    Forall teardown_event evs /\
    filter (fun e => is_group_remove e = true) evs
    = map (fun g => EvGroupRemove g (id (self w))) (groups (self w)).
Proof.
  assert (Hs : self (snd (kill w)) = self w).
  { destruct (decide (groups (self w) = [])) as [H | H].
    - now rewrite (kill_no_groups w H).
    - rewrite (kill_some_groups w H). cbn [snd].
      change (self (emit ?e2 (emit ?e1 ?x))) with (self x).
      now rewrite after_removals_self. }
  split; [now rewrite Hs |]. split; [exact Hs |].
  destruct (decide (groups (self w) = [])) as [H | H].
  - exists [EvWriterClose]. rewrite (kill_no_groups w H), H. cbn [fst snd].
    split; [reflexivity |]. split; [repeat constructor | reflexivity].
  - eexists. split; [apply (kill_trace_some_groups w H) |]. split.
    + repeat (apply Forall_app; split);
        [repeat constructor | apply Forall_teardown_removes | repeat constructor].
    + rewrite !filter_app, filter_group_removes. cbn.
      now rewrite app_nil_r.
Qed.

(** *** [handshake] *)

Lemma expected_ok w method data w' :
  recv w = (Ret (method, data), w') ->
  expected method w = (Ret (method, data), w').
Proof.
  intros H. unfold expected. rewrite (bind_Ret _ _ _ _ _ H). cbn [fst].
  now rewrite String.eqb_refl.
Qed.

Lemma handshake_exchange w d1 d2 f1 f2 st rest :
  writer_open w = true -> send_faults w = [] ->
  inbox w = (d1, RMsg "HANDSHAKE" f1) :: (d2, RMsg "PHASE 1" f2) :: rest ->
  (d1 + d2 <= 20)%nat ->
  f2 !! "status" = Some (PStr st) ->
  let w' := snd (wait_for handshake 20 w) in
  static w' = static w /\ inbox w' = rest /\ writer_open w' = true /\
  send_faults w' = [] /\ deadline w' = deadline w /\
  (fst (wait_for handshake 20 w), trace w') =
  match version_check (supported_versions (srv w)) st (f2 !! "version") with
  | Some true => (Raise ValueError, trace w ++ greeting w ++ [EvSend "BREAK" ∅])
  | Some false => (Ret tt, trace w ++ greeting w ++ [EvSend "HANDSHAKE" ∅])
  | None => (Raise KeyError, trace w ++ greeting w)
  end.
Proof.
  intros Hwo Hsf Hib Hd Hst.
  unfold wait_for.
  set (w0 := set_deadline (Some (now w + 20)%nat) w).
  unfold handshake.
  rewrite (bind_Ret _ _ _ _ _ (send_ok "HANDSHAKE" ∅ w0 Hwo Hsf)).
  set (w1 := emit _ w0).
  assert (R1 : recv w1 = _)
    by (apply (recv_in_time w1 d1 "HANDSHAKE" f1 _ (now w + 20)%nat Hwo Hib eq_refl);
        cbn; lia).
  rewrite (bind_Ret _ _ _ _ _ (expected_ok _ _ _ _ R1)). clear R1.
  set (w2 := set_now _ _).
  rewrite bind_gets.
  rewrite (bind_Ret _ _ _ _ _ (send_ok "PHASE 1" _ w2 Hwo Hsf)).
  set (w3 := emit _ w2).
  assert (R2 : recv w3 = _)
    by (apply (recv_in_time w3 d2 "PHASE 1" f2 rest (now w + 20)%nat Hwo eq_refl eq_refl);
        cbn; lia).
  rewrite (bind_Ret _ _ _ _ _ (expected_ok _ _ _ _ R2)). clear R2.
  set (w4 := set_now _ _).
  assert (S4 : forall method kw, send method kw w4 = (Ret tt, emit (EvSend method kw) w4))
    by (intros; now apply send_ok).
  cbn [snd]. unfold version_check, greeting.
  unfold bind, getitem, gets. rewrite Hst. cbn [ret str_lower py_eqb].
  destruct (String.eqb (lower st) "okay"); cbn [negb ret].
  - rewrite S4. cbn. rewrite <- !app_assoc. now repeat split.
  - destruct (f2 !! "version") as [v |]; cbn [ret raise].
    + change (supported_versions (srv w4)) with (supported_versions (srv w)).
      destruct (py_in v (supported_versions (srv w))); cbn [negb];
        rewrite S4; cbn; rewrite <- !app_assoc; now repeat split.
    + cbn. rewrite <- !app_assoc. now repeat split.
Qed.

(** The ways a handshake fails before the version check. *)
Lemma handshake_closed_writer w :
  writer_open w = false ->
  fst (wait_for handshake 20 w) = Raise ConnectionResetError.
Proof.
  intros H. unfold wait_for, handshake.
  rewrite (bind_Raise _ _ _ _ _ (send_closed "HANDSHAKE" ∅ (set_deadline _ w) H)).
  reflexivity.
Qed.

Lemma handshake_send_fault w e faults :
  writer_open w = true -> send_faults w = Some e :: faults ->
  fst (wait_for handshake 20 w) = Raise e.
Proof.
  intros H1 H2. unfold wait_for, handshake, bind, send.
  cbn [writer_open set_deadline send_faults]. rewrite H1, H2. reflexivity.
Qed.

Lemma handshake_silent_peer w :
  writer_open w = true -> send_faults w = [] -> inbox w = [] ->
  fst (wait_for handshake 20 w) = Raise TimeoutError.
Proof.
  intros H1 H2 H3. unfold wait_for, handshake.
  set (w0 := set_deadline _ w).
  rewrite (bind_Ret _ _ _ _ _ (send_ok "HANDSHAKE" ∅ w0 H1 H2)).
  unfold bind, expected, bind, recv.
  cbn [writer_open emit inbox deadline w0 set_deadline]. rewrite H1, H3. reflexivity.
Qed.

Lemma handshake_late_peer w d1 item rest :
  writer_open w = true -> send_faults w = [] ->
  inbox w = (d1, item) :: rest -> (20 < d1)%nat ->
  fst (wait_for handshake 20 w) = Raise TimeoutError.
Proof.
  intros H1 H2 H3 Hd. unfold wait_for, handshake.
  set (w0 := set_deadline _ w).
  rewrite (bind_Ret _ _ _ _ _ (send_ok "HANDSHAKE" ∅ w0 H1 H2)).
  unfold bind, expected, bind, recv.
  cbn [writer_open emit inbox deadline now w0 set_deadline]. rewrite H1, H3.
  cbn [negb]. destruct (Nat.ltb_spec (now w + 20) (now w + d1)); [reflexivity | lia].
Qed.

Lemma handshake_wrong_echo w d1 method f1 rest :
  writer_open w = true -> send_faults w = [] ->
  inbox w = (d1, RMsg method f1) :: rest -> (d1 <= 20)%nat ->
  method <> "HANDSHAKE" ->
  fst (wait_for handshake 20 w) = Raise ProtocolViolation.
Proof.
  intros H1 H2 H3 Hd Hm. unfold wait_for, handshake.
  set (w0 := set_deadline _ w).
  rewrite (bind_Ret _ _ _ _ _ (send_ok "HANDSHAKE" ∅ w0 H1 H2)).
  set (w1 := emit _ w0).
  assert (R1 : recv w1 = _)
    by (apply (recv_in_time w1 d1 method f1 _ (now w + 20)%nat H1 H3 eq_refl);
        cbn; lia).
  unfold bind at 1. unfold expected. rewrite (bind_Ret _ _ _ _ _ R1). cbn [fst].
  destruct (String.eqb_spec method "HANDSHAKE"); [contradiction | reflexivity].
Qed.

(** ** Claims about the handshake *)

(** C1 (the code departs from the claim).  The claim: the version exchange
    fails (BREAK is sent, the handshake raises) exactly when the status of
    the PHASE 1 reply is not okay OR its version is not supported.  The code
    tests [not(okay) and not(supported)]: for a reply that carries a [str]
    status and a version, the handshake sends BREAK and raises only when the
    status is not okay AND the version is unsupported, and in every other
    case, an okay status with an unsupported version among them, it sends
    the final HANDSHAKE and succeeds. *)
Theorem handshake_rejects_only_when_both_fail w d1 d2 f1 f2 st v rest :
  writer_open w = true -> send_faults w = [] ->
  inbox w = (d1, RMsg "HANDSHAKE" f1) :: (d2, RMsg "PHASE 1" f2) :: rest ->
  (d1 + d2 <= 20)%nat ->
  f2 !! "status" = Some (PStr st) -> f2 !! "version" = Some v ->
  let okay := String.eqb (lower st) "okay" in
  let supported := py_in v (supported_versions (srv w)) in
  (fst (wait_for handshake 20 w), trace (snd (wait_for handshake 20 w))) =
  if (negb okay && negb supported)%bool
  then (Raise ValueError, trace w ++ greeting w ++ [EvSend "BREAK" ∅])
  else (Ret tt, trace w ++ greeting w ++ [EvSend "HANDSHAKE" ∅]).
Proof.
  intros Hwo Hsf Hib Hd Hst Hv okay supported.
  destruct (handshake_exchange w d1 d2 f1 f2 st rest Hwo Hsf Hib Hd Hst)
    as (_ & _ & _ & _ & _ & H).
  rewrite H. unfold version_check. rewrite Hv. subst okay supported.
  destruct (String.eqb (lower st) "okay"); [reflexivity |].
  now destruct (py_in v (supported_versions (srv w))).
Qed.

Lemma handshake_rejects_only_when_both_fail_witness :
  py_in (PStr "9.9") (supported_versions (srv (sample_world [] unsupported_peer))) = false /\
  (fst (wait_for handshake 20 (sample_world [] unsupported_peer)),
   trace (snd (wait_for handshake 20 (sample_world [] unsupported_peer)))) =
  (Ret tt,
   [EvSend "HANDSHAKE" ∅;
    EvSend "PHASE 1" {[ "server_version" := PStr "1.0" ]};
    EvSend "HANDSHAKE" ∅]).
Proof.
  split; [reflexivity |].
  apply (handshake_rejects_only_when_both_fail
           (sample_world [] unsupported_peer) 1 1 ∅ (phase1_reply "okay" "9.9")
           "okay" (PStr "9.9") []);
    first [reflexivity | simpl; lia].
Defined.

(** *** [listen] *)

Lemma listen_loop_only n : only (fun e => is_dispatch e = true) (listen_loop n).
Proof.
  induction n as [| n IH]; intros w; [apply extends_refl |].
  cbn [listen_loop]. pose proof (recv_same_trace w) as Ht.
  destruct (recv w) as [[[method data] | e |] w1]; cbn [snd] in Ht.
  - eapply extends_trans; [| apply IH].
    exists [EvCreateTask (TaskProcess method data)].
    split; [cbn; now rewrite Ht | now repeat constructor].
  - destruct (caught_by_listen e); now apply extends_same_trace.
  - now apply extends_same_trace.
Qed.

Lemma listen_loop_static n : preserves static (listen_loop n).
Proof.
  induction n as [| n IH]; intros w; [reflexivity |].
  cbn [listen_loop]. pose proof (recv_static w) as Hs.
  destruct (recv w) as [[[method data] | e |] w1]; cbn [snd] in Hs.
  - rewrite IH. exact Hs.
  - now destruct (caught_by_listen e).
  - exact Hs.
Qed.

Lemma dispatch_is_serving e : is_dispatch e = true -> serving_event e.
Proof. destruct e as [| | | | [|] | | |]; try discriminate. intros _. exact I. Qed.

Lemma teardown_is_serving e : teardown_event e -> serving_event e.
Proof. destruct e as [| | | | [|] | | |]; simpl; tauto. Qed.

Lemma listen_only : only serving_event listen.
Proof.
  intros w. unfold listen. revert w.
  change (only serving_event
            (fun w => (listen_loop (S (length (inbox w)));; kill) w)).
  intros w. apply only_bind.
  - eapply only_weaken; [apply dispatch_is_serving | apply listen_loop_only].
  - intros _. eapply only_weaken; [apply teardown_is_serving | apply kill_only].
Qed.

(** With one unit of fuel per message still in the inbox, and one more, the
    loop always comes to a [recv] that does not return a message. *)
Lemma listen_loop_runs n w :
  (length (inbox w) < n)%nat ->
  exists w1 r w2,
    loop_reaches w w1 /\ recv w1 = (r, w2) /\
    match r with
    | Ret _ => False
    | Raise e =>
        listen_loop n w =
        (if caught_by_listen e then Ret tt else Raise e, w2)
    | Pending => listen_loop n w = (Pending, w2)
    end.
Proof.
  revert w. induction n as [| n IH]; intros w Hn; [lia |].
  cbn [listen_loop].
  destruct (recv w) as [[[method data] | e |] w1] eqn:Hr.
  - pose proof (recv_Ret_inbox _ _ _ Hr) as Hlen.
    destruct (IH (emit (EvCreateTask (TaskProcess method data)) w1))
      as (wa & r & wb & Hreach & Hrecv & Hres).
    { cbn [inbox emit]. lia. }
    exists wa, r, wb. split; [| split; [exact Hrecv | exact Hres]].
    eapply reaches_next; eauto.
  - exists w, (Raise e), w1. split; [constructor |]. split; [exact Hr |].
    now destruct (caught_by_listen e).
  - exists w, Pending, w1. split; [constructor |]. now split.
Qed.

(** The loop does not close the writer; only the final [kill] does. *)
Lemma listen_loop_no_close n w :
  occurrences is_writer_close (trace (snd (listen_loop n w)))
  = occurrences is_writer_close (trace w).
Proof.
  eapply extends_occurrences; [| apply listen_loop_only].
  intros e. destruct e as [| | | | [|] | | |]; simpl; congruence.
Qed.

Lemma caught_by_listen_iff e :
  caught_by_listen e = true <-> e = ValueError \/ e = ConnectionResetError.
Proof.
  destruct e; simpl; split; intros H; try discriminate; auto;
    destruct H; discriminate.
Qed.

(** ** Claims about the dispatch loop *)

(** The [while True] loop of [listen] always comes to a [recv] that
    does not return a message.  It is left without an exception exactly when
    that [recv] raised [ValueError] or [ConnectionResetError] (the framing
    and connection-closed failures): then [listen] goes on with [kill], on
    the world the loop ended in, and the writer is closed exactly once more
    than before, that is [kill] ran once.  Any other exception of [recv]
    leaves [listen] as that exception, and a peer that stays silent leaves
    it suspended; in both cases [kill] is not run. *)
Theorem listen_ends_with_one_kill w :
  (forall e, caught_by_listen e = true <->
             e = ValueError \/ e = ConnectionResetError) /\
  exists w1 r w2,
    loop_reaches w w1 /\ recv w1 = (r, w2) /\
    match r with
    | Ret _ => False
    | Raise e =>
        if caught_by_listen e
        then listen_loop (S (length (inbox w))) w = (Ret tt, w2) /\
             listen w = kill w2 /\
             occurrences is_writer_close (trace (snd (listen w)))
             = S (occurrences is_writer_close (trace w))
        else listen w = (Raise e, w2) /\
             occurrences is_writer_close (trace (snd (listen w)))
             = occurrences is_writer_close (trace w)
    | Pending =>
        listen w = (Pending, w2) /\
        occurrences is_writer_close (trace (snd (listen w)))
        = occurrences is_writer_close (trace w)
    end.
Proof.
  split; [apply caught_by_listen_iff |].
  destruct (listen_loop_runs (S (length (inbox w))) w)
    as (w1 & r & w2 & Hreach & Hrecv & Hres); [lia |].
  exists w1, r, w2. split; [exact Hreach |]. split; [exact Hrecv |].
  pose proof (listen_loop_no_close (S (length (inbox w))) w) as Hc.
  destruct r as [x | e |]; [exact Hres | |].
  - destruct (caught_by_listen e).
    + split; [exact Hres |].
      assert (Hl : listen w = kill w2)
        by (unfold listen; now rewrite (bind_Ret _ _ _ _ _ Hres)).
      split; [exact Hl |].
      rewrite Hl, kill_closes_once. rewrite Hres in Hc. cbn [snd] in Hc.
      now rewrite Hc.
    + assert (Hl : listen w = (Raise e, w2))
        by (unfold listen; now rewrite (bind_Raise _ _ _ _ _ Hres)).
      split; [exact Hl |]. rewrite Hl. rewrite Hres in Hc. exact Hc.
  - assert (Hl : listen w = (Pending, w2))
      by (unfold listen; now rewrite (bind_Pending _ _ _ _ Hres)).
    split; [exact Hl |]. rewrite Hl. rewrite Hres in Hc. exact Hc.
Qed.

(** *** [raise_error_code] and [process] *)

Lemma raise_error_code_eq code w :
  raise_error_code code w =
  let error := resolve_error code in
  let w1 := emit (EvCallHook (HookError error)) w in
  if py_eqb (hook_result w error) (PInt (-1))
  then (Raise (py_raise error), emit (EvLog (LogRaised (id (self w)) error)) w1)
  else (Ret tt, w1).
Proof.
  unfold raise_error_code, call_error, hook_result.
  rewrite bind_Ret with (a := match error_hook w with
                              | Some f => f (resolve_error code)
                              | None => PInt (-1)
                              end)
                        (w' := emit (EvCallHook (HookError (resolve_error code))) w)
    by reflexivity.
  cbv zeta. destruct (py_eqb _ _); reflexivity.
Qed.

(** Only the integer [-1] compares equal to [-1]. *)
Lemma py_eqb_sentinel r : py_eqb r (PInt (-1)) = true <-> r = PInt (-1).
Proof.
  destruct r as [| [|] | z | s]; simpl; split; intros H; try discriminate.
  - apply Z.eqb_eq in H. now subst.
  - injection H as ->. reflexivity.
Qed.

Lemma resolve_error_table :
  resolve_error 2 = EClass HandshakeError /\
  resolve_error 6 = EClass Recved404Error.
Proof. split; reflexivity. Qed.

Lemma error_codes_keys code :
  error_codes !! code = None <-> code <> 2 /\ code <> 6.
Proof.
  unfold error_codes. split.
  - intros H. split; intros ->; discriminate H.
  - intros [H2 H6]. rewrite lookup_insert_ne by congruence.
    now rewrite lookup_singleton_ne by congruence.
Qed.

Lemma getattr_registered s method f :
  Request s !! method = Some f -> getattr_Request s method = Some f.
Proof. intros H. unfold getattr_Request. now rewrite H. Qed.

Lemma process_attribute w method data f :
  getattr_Request (srv w) method = Some f ->
  process method data w =
  (do c <- gets (fun w => id (self w));
   log (LogRequested c method);;
   call_handler method f data) w.
Proof.
  intros Hf. unfold process. rewrite bind_gets. cbv beta. now rewrite Hf.
Qed.

Lemma process_entered w method data f r :
  getattr_Request (srv w) method = Some f ->
  data !! "server" = None -> data !! "client" = None ->
  f data = Entered r ->
  process method data w =
  (r,
   emit (EvInvoke method (id (self w)) data)
        (emit (EvLog (LogRequested (id (self w)) method)) w)).
Proof.
  intros Hf Hs Hc Hr. rewrite (process_attribute w method data f Hf), bind_gets.
  unfold log. rewrite bind_modify. unfold call_handler.
  rewrite bool_decide_eq_false_2.
  - rewrite Hr. reflexivity.
  - rewrite Hs, Hc. intros [[? ?] | [? ?]]; discriminate.
Qed.


Lemma process_reserved_field w method data f :
  Request (srv w) !! method = Some f ->
  is_Some (data !! "server") \/ is_Some (data !! "client") ->
  process method data w =
  (Raise TypeError, emit (EvLog (LogRequested (id (self w)) method)) w).
Proof.
  intros Hf Hd.
  rewrite (process_attribute w method data f
             (getattr_registered _ _ _ Hf)), bind_gets.
  unfold log. rewrite bind_modify. unfold call_handler.
  now rewrite bool_decide_eq_true_2.
Qed.



(** ** Claims about dispatch and error signaling *)




(** C7.  [raise_error_code] resolves the code, calls the error hook with the
    resolved value, and then raises that value ([raise error]) if and only
    if the hook returned [-1]; for any other result of the hook it returns
    normally and nothing propagates.  An unregistered hook counts as [-1].
    For the codes of the table the exception raised is the one the table
    gives. *)
Theorem raise_error_code_raises_iff_unhandled code w :
  let error := resolve_error code in
  (fst (raise_error_code code w) = Raise (py_raise error)
   <-> hook_result w error = PInt (-1)) /\
  (fst (raise_error_code code w) = Ret tt
   <-> hook_result w error <> PInt (-1)) /\
  (forall c, error_codes !! code = Some c -> py_raise error = c).
Proof.
  intros error. rewrite raise_error_code_eq. fold error. cbv zeta.
  pose proof (py_eqb_sentinel (hook_result w error)) as Hs.
  destruct (py_eqb (hook_result w error) (PInt (-1))); cbn [fst].
  - assert (hook_result w error = PInt (-1)) as -> by now apply Hs.
    repeat split; auto; try discriminate; try congruence.
    intros c Hc. subst error. unfold resolve_error. now rewrite Hc.
  - assert (hook_result w error <> PInt (-1)) as Hne
        by (intros E; apply Hs in E; discriminate).
    repeat split; auto; try discriminate; try congruence.
    intros c Hc. subst error. unfold resolve_error. now rewrite Hc.
Qed.

(** C8.  A code that is not a key of [error_codes] (the keys are 2 and 6)
    resolves to the integer [-1]: [raise_error_code] hands [-1] to the
    error hook as the error, and what it does next is decided by the hook's
    answer alone.  The lookup is [dict.get] with a default, so
    [raise_error_code] never ends in [KeyError]. *)
Theorem undefined_code_resolves_to_sentinel code :
  code <> 2 -> code <> 6 ->
  error_codes !! code = None /\
  resolve_error code = EInt (-1) /\
  forall w,
    raise_error_code code w =
    (if py_eqb (hook_result w (EInt (-1))) (PInt (-1))
     then (Raise TypeError,
           emit (EvLog (LogRaised (id (self w)) (EInt (-1))))
                (emit (EvCallHook (HookError (EInt (-1)))) w))
     else (Ret tt, emit (EvCallHook (HookError (EInt (-1)))) w)) /\
    fst (raise_error_code code w) <> Raise KeyError.
Proof.
  intros H2 H6.
  assert (Hn : error_codes !! code = None) by now apply error_codes_keys.
  assert (Hr : resolve_error code = EInt (-1))
    by (unfold resolve_error; now rewrite Hn).
  repeat split; [exact Hn | exact Hr | |];
    rewrite raise_error_code_eq, Hr; cbv zeta;
    destruct (py_eqb _ _); first [reflexivity | discriminate].
Qed.

Lemma undefined_code_resolves_to_sentinel_witness :
  error_codes !! 7 = None /\
  resolve_error 7 = EInt (-1) /\
  forall w,
    raise_error_code 7 w =
    (if py_eqb (hook_result w (EInt (-1))) (PInt (-1))
     then (Raise TypeError,
           emit (EvLog (LogRaised (id (self w)) (EInt (-1))))
                (emit (EvCallHook (HookError (EInt (-1)))) w))
     else (Ret tt, emit (EvCallHook (HookError (EInt (-1)))) w)) /\
    fst (raise_error_code 7 w) <> Raise KeyError.
Proof. apply (undefined_code_resolves_to_sentinel 7); lia. Defined.

(** ** Claims about [register] *)

Lemma _register_eq w :
  _register w =
  (Ret tt,
   emit (EvCreateTask (TaskHook HookJoin))
     (emit (EvLog (LogRegistered (addr (self w)) (id (self w))))
        (emit (EvAddClient (id (self w)))
           (set_srv (Server (version (srv w)) (supported_versions (srv w))
                            (Request (srv w)) (Request_builtin (srv w))
                            (clients (srv w) ++ [id (self w)]))
                    w)))).
Proof. reflexivity. Qed.

Lemma serving_not_admission e :
  serving_event e -> is_add_client e = false /\ is_join e = false.
Proof. destruct e as [| | | [| | |] | [| [| |]] | | |]; simpl; tauto. Qed.

Lemma unadmitted_not_admission e :
  unadmitted_event e ->
  is_add_client e = false /\ is_join e = false /\ is_dispatch e = false /\
  is_writer_close e = false.
Proof. destruct e as [| | | [| | |] | | | [| |] |]; simpl; tauto. Qed.

(** C3.  The successful handshake: the peer echoes HANDSHAKE and answers
    the server's PHASE 1 in time with an okay status and a version of the
    supported set, over a working connection.  Then the handshake returns,
    [register] admits the session: [add_client] is called, the registration
    is logged and the [join] hook is scheduled, and only then [listen]
    starts, on the rest of the peer's messages.  In the whole run of
    [register], the dispatch loop and its teardown included, [add_client]
    is called exactly once and [join] is scheduled exactly once. *)
Theorem register_admits_after_handshake w d1 d2 f1 f2 st v rest :
  writer_open w = true -> send_faults w = [] ->
  inbox w = (d1, RMsg "HANDSHAKE" f1) :: (d2, RMsg "PHASE 1" f2) :: rest ->
  (d1 + d2 <= 20)%nat ->
  f2 !! "status" = Some (PStr st) -> lower st = "okay" ->
  f2 !! "version" = Some v -> py_in v (supported_versions (srv w)) = true ->
  let w1 := snd (wait_for handshake 20 w) in
  let w2 := snd (_register w1) in
  fst (wait_for handshake 20 w) = Ret tt /\
  trace w2 =
    trace w ++ greeting w
      ++ [EvSend "HANDSHAKE" ∅; EvAddClient (id (self w));
          EvLog (LogRegistered (addr (self w)) (id (self w)));
          EvCreateTask (TaskHook HookJoin)] /\
  clients (srv w2) = clients (srv w) ++ [id (self w)] /\
  inbox w2 = rest /\
  register w = listen w2 /\
  occurrences is_add_client (trace (snd (register w)))
    = S (occurrences is_add_client (trace w)) /\
  occurrences is_join (trace (snd (register w)))
    = S (occurrences is_join (trace w)).
Proof.
  intros Hwo Hsf Hib Hd Hst Hok Hv Hsup w1 w2.
  destruct (handshake_exchange w d1 d2 f1 f2 st rest Hwo Hsf Hib Hd Hst)
    as (Hstatic & Hinbox & _ & _ & _ & H).
  unfold version_check in H. rewrite Hok in H. cbn in H.
  injection H as Hfst Htrace. fold w1 in Hstatic, Hinbox, Htrace.
  injection Hstatic as Hself Hsrv _ _.
  assert (Ht2 : trace w2 =
    trace w ++ greeting w
      ++ [EvSend "HANDSHAKE" ∅; EvAddClient (id (self w));
          EvLog (LogRegistered (addr (self w)) (id (self w)));
          EvCreateTask (TaskHook HookJoin)]).
  { subst w2. rewrite _register_eq. cbn [snd trace emit set_srv].
    rewrite Htrace, Hself. rewrite <- !app_assoc. reflexivity. }
  assert (Hreg : register w = listen w2).
  { unfold register. destruct (wait_for handshake 20 w) as [r wx] eqn:Hw.
    cbn [fst snd] in *. subst r w1.
    now rewrite (bind_Ret _ _ _ _ _ (_register_eq wx)). }
  assert (Hcount : forall p,
             (forall e, serving_event e -> p e = false) ->
             occurrences p (trace (snd (register w))) = occurrences p (trace w2)).
  { intros p Hp. rewrite Hreg.
    eapply extends_occurrences; [exact Hp | apply listen_only]. }
  split; [exact Hfst |]. split; [exact Ht2 |].
  split; [subst w2; rewrite _register_eq; cbn; now rewrite Hsrv, Hself |].
  split; [subst w2; now rewrite _register_eq |].
  split; [exact Hreg |]. split.
  - rewrite Hcount by (intros e He; apply (serving_not_admission e He)).
    rewrite Ht2. unfold greeting. count_events.
  - rewrite Hcount by (intros e He; apply (serving_not_admission e He)).
    rewrite Ht2. unfold greeting. count_events.
Qed.

Lemma register_admits_after_handshake_witness :
  occurrences is_add_client
    (trace (snd (register (sample_world ["lobby"] serving_peer)))) = 1%nat /\
  occurrences is_join
    (trace (snd (register (sample_world ["lobby"] serving_peer)))) = 1%nat.
Proof.
  destruct (register_admits_after_handshake
              (sample_world ["lobby"] serving_peer) 1 1 ∅
              (phase1_reply "okay" "1.0") "okay" (PStr "1.0")
              [(5%nat, RMsg "foo" {[ "x" := PStr "y" ]});
               (5%nat, RMsg "bar" ∅);
               (5%nat, RMsg "foo" {[ "x" := PStr "z" ]});
               (5%nat, RFail ConnectionResetError)])
    as (_ & _ & _ & _ & _ & Ha & Hj);
    try reflexivity; [simpl; lia |].
  split; [exact Ha | exact Hj].
Defined.

(** C4.  When the handshake, run under its deadline of 20 time units, ends
    in an exception, whichever it is, [register] calls
    [raise_error_code(2)], which hands [HandshakeError] to the error hook,
    and does nothing else: everything [register] leaves in the trace is a
    message sent during the handshake, the call of the error hook or the
    log line of the raised error.  [add_client] is not called, no [join]
    hook and no [process] task is scheduled, and the server's client
    registry is what it was. *)
Theorem register_failed_handshake_not_admitted w e w1 :
  wait_for handshake 20 w = (Raise e, w1) ->
  register w = raise_error_code 2 w1 /\
  resolve_error 2 = EClass HandshakeError /\
  (exists logs,
      trace (snd (register w)) =
      trace w1 ++ EvCallHook (HookError (EClass HandshakeError)) :: logs) /\
  extends unadmitted_event w (snd (register w)) /\
  occurrences is_add_client (trace (snd (register w)))
    = occurrences is_add_client (trace w) /\
  occurrences is_join (trace (snd (register w)))
    = occurrences is_join (trace w) /\
  occurrences is_dispatch (trace (snd (register w)))
    = occurrences is_dispatch (trace w) /\
  clients (srv (snd (register w))) = clients (srv w).
Proof.
  intros H.
  assert (Hreg : register w = raise_error_code 2 w1)
    by (unfold register; now rewrite H).
  assert (Hext : extends unadmitted_event w (snd (register w))).
  { rewrite Hreg. eapply extends_trans; [| apply raise_error_code_only].
    pose proof (wait_for_only unadmitted_event handshake 20 handshake_only w) as Hh.
    now rewrite H in Hh. }
  assert (Hst : static (snd (register w)) = static w).
  { rewrite Hreg, raise_error_code_static.
    pose proof (wait_for_static handshake 20 handshake_static w) as Hh.
    now rewrite H in Hh. }
  split; [exact Hreg |]. split; [reflexivity |]. split.
  - rewrite Hreg, raise_error_code_eq.
    change (resolve_error 2) with (EClass HandshakeError). cbv zeta.
    destruct (py_eqb _ _); eexists; cbn [snd trace emit];
      rewrite <- ?app_assoc; reflexivity.
  - split; [exact Hext |].
    repeat split;
      try (eapply extends_occurrences; [| exact Hext];
           intros ev Hev; apply (unadmitted_not_admission ev Hev)).
    injection Hst as _ Hsrv _ _. now rewrite Hsrv.
Qed.

Lemma register_failed_handshake_not_admitted_witness :
  fst (wait_for handshake 20 (sample_world [] late_peer)) = Raise TimeoutError /\
  occurrences is_add_client (trace (snd (register (sample_world [] late_peer)))) = 0%nat /\
  occurrences is_join (trace (snd (register (sample_world [] late_peer)))) = 0%nat /\
  occurrences is_dispatch (trace (snd (register (sample_world [] late_peer)))) = 0%nat.
Proof.
  split; [reflexivity |].
  destruct (register_failed_handshake_not_admitted
              (sample_world [] late_peer) TimeoutError
              (snd (wait_for handshake 20 (sample_world [] late_peer))) eq_refl)
    as (_ & _ & _ & _ & Ha & Hj & Hd & _).
  split; [exact Ha |]. split; [exact Hj | exact Hd].
Defined.

(** ** The scenarios, run *)

(** The fuel [listen] gives its loop is never what stops it: more fuel
    changes nothing. *)
Lemma listen_loop_fuel n w :
  (length (inbox w) < n)%nat ->
  listen_loop n w = listen_loop (S (length (inbox w))) w.
Proof.
  revert w. induction n as [| n IH]; intros w Hn; [lia |].
  cbn [listen_loop].
  destruct (recv w) as [[[method data] | e |] w1] eqn:Hr; try reflexivity.
  pose proof (recv_Ret_inbox _ _ _ Hr) as Hlen.
  rewrite IH by (cbn [inbox emit]; lia).
  rewrite <- Hlen. cbn [inbox emit]. reflexivity.
Qed.

(** A whole session: handshake, three requests of which the second names an
    unknown method, and the peer's disconnection. *)
Example serving_session :
  let w := snd (register (sample_world ["lobby"] serving_peer)) in
  fst (register (sample_world ["lobby"] serving_peer)) = Ret tt /\
  filter (fun e => is_dispatch e = true) (trace w) =
    [EvCreateTask (TaskProcess "foo" {[ "x" := PStr "y" ]});
     EvCreateTask (TaskProcess "bar" ∅);
     EvCreateTask (TaskProcess "foo" {[ "x" := PStr "z" ]})] /\
  occurrences is_writer_close (trace w) = 1%nat /\
  occurrences is_left (trace w) = 1%nat /\
  group_members w !! "lobby" = Some [7] /\
  clients (srv w) = [1].
Proof. vm_compute. repeat split; reflexivity. Qed.

(** The task created for the unknown method signals code 6 and fails alone. *)
Example unknown_method_task :
  let r := process "bar" ∅ (sample_world ["lobby"] []) in
  fst r = Raise Recved404Error /\
  trace (snd r) =
    [EvCallHook (HookError (EClass Recved404Error));
     EvLog (LogRaised 1 (EClass Recved404Error))].
Proof. vm_compute. split; reflexivity. Qed.

(** The same session without a group: admitted and served, and the final
    [kill] fails in [asyncio.wait]. *)
Example groupless_session :
  let r := register (sample_world [] serving_peer) in
  fst r = Raise ValueError /\
  occurrences is_add_client (trace (snd r)) = 1%nat /\
  occurrences is_writer_close (trace (snd r)) = 1%nat /\
  occurrences is_left (trace (snd r)) = 0%nat.
Proof. vm_compute. repeat split; reflexivity. Qed.

(** A status that is not okay with a supported version is let in as well. *)
Example refused_status_supported_version :
  let peer := [(1%nat, RMsg "HANDSHAKE" ∅);
               (1%nat, RMsg "PHASE 1" (phase1_reply "no" "1.0"))] in
  let r := wait_for handshake 20 (sample_world [] peer) in
  fst r = Ret tt /\ occurrences is_break (trace (snd r)) = 0%nat.
Proof. vm_compute. split; reflexivity. Qed.

(** Neither okay nor supported: BREAK, and [register] signals code 2. *)
Example refused_status_unsupported_version :
  let peer := [(1%nat, RMsg "HANDSHAKE" ∅);
               (1%nat, RMsg "PHASE 1" (phase1_reply "no" "9.9"))] in
  let r := register (sample_world [] peer) in
  fst r = Raise HandshakeError /\
  occurrences is_break (trace (snd r)) = 1%nat /\
  occurrences is_add_client (trace (snd r)) = 0%nat.
Proof. vm_compute. repeat split; reflexivity. Qed.

(** A wrong echo and a silent peer both end in code 2. *)
Example wrong_echo_session :
  fst (wait_for handshake 20 (sample_world [] wrong_echo_peer))
    = Raise ProtocolViolation /\
  fst (wait_for handshake 20 (sample_world [] [])) = Raise TimeoutError /\
  fst (register (sample_world [] wrong_echo_peer)) = Raise HandshakeError /\
  fst (register (sample_world [] [])) = Raise HandshakeError.
Proof. vm_compute. repeat split; reflexivity. Qed.

(** ** Identity of a session: [__init__], the comparisons and [__str__] *)

Lemma compare_sessions op a b :
  compare op a (OClient b) = inr (cmp_Z op (id a) (id b)).
Proof.
  destruct op; try reflexivity.
  unfold compare, compare_value. cbn. now rewrite Z.eqb_sym.
Qed.

Lemma eq_sessions a b :
  __eq__ a (OClient b) = inr true <-> id a = id b.
Proof.
  unfold __eq__. rewrite compare_sessions. cbn [cmp_Z]. split.
  - intros [= H]. now apply Z.eqb_eq.
  - intros ->. now rewrite Z.eqb_refl.
Qed.

Example str_of_ids :
  __str__ (Client 0 "a" false []) = "0" /\
  __str__ (Client 1207 "a" false []) = "1207" /\
  __str__ (Client (-45) "a" false []) = "-45".
Proof. vm_compute. repeat split; reflexivity. Qed.

(** X1.  [==] between two sessions never raises and is true exactly when
    the two have the same [id]: the address, the groups and the superuser
    flag play no part. *)
Theorem session_equality_by_id a b :
  (__eq__ a (OClient b) = inr true <-> id a = id b) /\
  (__eq__ a (OClient b) = inr false <-> id a <> id b) /\
  __eq__ a (OClient b) = __eq__ b (OClient a).
Proof.
  unfold __eq__. rewrite !compare_sessions. cbn [cmp_Z].
  destruct (Z.eqb_spec (id a) (id b)) as [E | E].
  - rewrite E, Z.eqb_refl. repeat split; auto; try discriminate. congruence.
  - destruct (Z.eqb_spec (id b) (id a)); [congruence |].
    repeat split; auto; try discriminate; intros; congruence.
Qed.

(** X2.  [__init__] gives every session the [id] 1, so any two sessions
    that were just constructed compare equal, whatever their peers. *)
Theorem new_sessions_compare_equal peer1 peer2 :
  __eq__ (__init__ peer1) (OClient (__init__ peer2)) = inr true /\
  __str__ (__init__ peer1) = __str__ (__init__ peer2).
Proof. split; reflexivity. Qed.

(** X3.  The four orderings between two sessions never raise and order
    the sessions by [id]: [a > b] is [b < a], [a >= b] is [b <= a],
    [a <= b] holds exactly when [a < b] or [a == b], and of [a < b],
    [a == b] and [a > b] exactly one holds. *)
Theorem session_ordering_by_id a b :
  __lt__ a (OClient b) = inr (bool_decide (id a < id b)) /\
  __le__ a (OClient b) = inr (bool_decide (id a <= id b)) /\
  __gt__ a (OClient b) = __lt__ b (OClient a) /\
  __ge__ a (OClient b) = __le__ b (OClient a) /\
  (__le__ a (OClient b) = inr true <->
   __lt__ a (OClient b) = inr true \/ __eq__ a (OClient b) = inr true) /\
  ((__lt__ a (OClient b) = inr true /\ __eq__ a (OClient b) = inr false /\
    __gt__ a (OClient b) = inr false) \/
   (__lt__ a (OClient b) = inr false /\ __eq__ a (OClient b) = inr true /\
    __gt__ a (OClient b) = inr false) \/
   (__lt__ a (OClient b) = inr false /\ __eq__ a (OClient b) = inr false /\
    __gt__ a (OClient b) = inr true)).
Proof.
  unfold __lt__, __le__, __gt__, __ge__, __eq__. rewrite !compare_sessions.
  cbn [cmp_Z].
  destruct (Z.ltb_spec (id a) (id b)), (Z.leb_spec (id a) (id b)),
    (Z.eqb_spec (id a) (id b)), (Z.ltb_spec (id b) (id a)); try lia;
    (split; [now rewrite ?bool_decide_eq_true_2, ?bool_decide_eq_false_2 by lia |]);
    (split; [now rewrite ?bool_decide_eq_true_2, ?bool_decide_eq_false_2 by lia |]);
    repeat split; auto; try discriminate; try tauto;
    try (intros [H' | H']; discriminate).
Qed.


(** X5.  [str] of a session is the decimal numeral of its [id]; two
    sessions print alike exactly when they compare equal. *)
Theorem str_identifies_session a b :
  __str__ a = __str__ b <-> __eq__ a (OClient b) = inr true.
Proof.
  rewrite eq_sessions. unfold __str__. split.
  - apply pretty_Z_inj.
  - now intros ->.
Qed.

(** ** More on the handshake *)

Lemma recv_late w dt item rest d :
  writer_open w = true -> inbox w = (dt, item) :: rest ->
  deadline w = Some d -> (d < now w + dt)%nat ->
  recv w = (Raise TimeoutError, set_now (Nat.max (now w) d) w).
Proof.
  intros H1 H2 H3 H4. unfold recv. rewrite H1, H2, H3. cbn [negb default].
  destruct (Nat.ltb_spec d (now w + dt)); [reflexivity | lia].
Qed.

Lemma recv_nothing w d :
  writer_open w = true -> inbox w = [] -> deadline w = Some d ->
  recv w = (Raise TimeoutError, set_now (Nat.max (now w) d) w).
Proof. intros H1 H2 H3. unfold recv. now rewrite H1, H2, H3. Qed.

Lemma expected_Raise w method e w' :
  recv w = (Raise e, w') -> expected method w = (Raise e, w').
Proof. intros H. unfold expected. now rewrite (bind_Raise _ _ _ _ _ H). Qed.

(** The server's side of the exchange up to the PHASE 1 it sends. *)
Ltac run_greeting w d1 f1 Hwo Hsf Hib :=
  unfold wait_for;
  set (w0 := set_deadline (Some (now w + 20)%nat) w);
  unfold handshake;
  rewrite (bind_Ret _ _ _ _ _ (send_ok "HANDSHAKE" ∅ w0 Hwo Hsf));
  set (w1 := emit _ w0);
  let R1 := fresh "R1" in
  assert (R1 : recv w1 = _)
    by (apply (recv_in_time w1 d1 "HANDSHAKE" f1 _ (now w + 20)%nat Hwo Hib eq_refl);
        cbn; lia);
  rewrite (bind_Ret _ _ _ _ _ (expected_ok _ _ _ _ R1)); clear R1;
  set (w2 := set_now _ _);
  rewrite bind_gets;
  rewrite (bind_Ret _ _ _ _ _ (send_ok "PHASE 1" _ w2 Hwo Hsf));
  set (w3 := emit _ w2).

(** X6.  When the peer answers the greeting in time with another method
    than HANDSHAKE, the handshake raises at once: the server has sent the
    greeting and nothing else, neither PHASE 1 nor BREAK, and the rest of
    the peer's messages is left unread. *)
Theorem wrong_echo_stops_handshake w d1 method f1 rest :
  writer_open w = true -> send_faults w = [] ->
  inbox w = (d1, RMsg method f1) :: rest -> (d1 <= 20)%nat ->
  method <> "HANDSHAKE" ->
  fst (wait_for handshake 20 w) = Raise ProtocolViolation /\
  trace (snd (wait_for handshake 20 w)) = trace w ++ [EvSend "HANDSHAKE" ∅] /\
  inbox (snd (wait_for handshake 20 w)) = rest.
Proof.
  intros Hwo Hsf Hib Hd Hm. unfold wait_for, handshake.
  set (w0 := set_deadline _ w).
  rewrite (bind_Ret _ _ _ _ _ (send_ok "HANDSHAKE" ∅ w0 Hwo Hsf)).
  set (w1 := emit _ w0).
  assert (R1 : recv w1 = _)
    by (apply (recv_in_time w1 d1 method f1 _ (now w + 20)%nat Hwo Hib eq_refl);
        cbn; lia).
  assert (E : expected "HANDSHAKE" w1
              = (Raise ProtocolViolation, set_now (now w1 + d1) (set_inbox rest w1))).
  { unfold expected. rewrite (bind_Ret _ _ _ _ _ R1). cbn [fst].
    destruct (String.eqb_spec method "HANDSHAKE"); [contradiction | reflexivity]. }
  rewrite (bind_Raise _ _ _ _ _ E). repeat split; reflexivity.
Qed.

Lemma wrong_echo_stops_handshake_witness :
  fst (wait_for handshake 20 (sample_world [] wrong_echo_peer))
    = Raise ProtocolViolation /\
  trace (snd (wait_for handshake 20 (sample_world [] wrong_echo_peer)))
    = [EvSend "HANDSHAKE" ∅] /\
  inbox (snd (wait_for handshake 20 (sample_world [] wrong_echo_peer))) = [].
Proof.
  apply (wrong_echo_stops_handshake (sample_world [] wrong_echo_peer) 1 "HELLO" ∅ []);
    first [reflexivity | discriminate | simpl; lia].
Defined.

(** X7.  When the peer's answer to the greeting would come later than 20
    time units after the start, or never comes, the handshake ends in
    [TimeoutError] when the deadline is reached: only the greeting was sent
    and nothing was taken off the wire. *)
Theorem silent_or_late_peer_times_out w :
  writer_open w = true -> send_faults w = [] ->
  (inbox w = [] \/
   exists d1 item rest, inbox w = (d1, item) :: rest /\ (20 < d1)%nat) ->
  fst (wait_for handshake 20 w) = Raise TimeoutError /\
  trace (snd (wait_for handshake 20 w)) = trace w ++ [EvSend "HANDSHAKE" ∅] /\
  inbox (snd (wait_for handshake 20 w)) = inbox w /\
  now (snd (wait_for handshake 20 w)) = (now w + 20)%nat.
Proof.
  intros Hwo Hsf Hib. unfold wait_for, handshake.
  set (w0 := set_deadline _ w).
  rewrite (bind_Ret _ _ _ _ _ (send_ok "HANDSHAKE" ∅ w0 Hwo Hsf)).
  set (w1 := emit _ w0).
  assert (R1 : recv w1 = (Raise TimeoutError,
                          set_now (Nat.max (now w1) (now w + 20)%nat) w1)).
  { destruct Hib as [Hib | (d1 & item & rest & Hib & Hd)].
    - now apply recv_nothing.
    - apply (recv_late w1 d1 item rest); auto. cbn. lia. }
  rewrite (bind_Raise _ _ _ _ _ (expected_Raise _ _ _ _ R1)).
  cbn. repeat split. lia.
Qed.

Lemma silent_or_late_peer_times_out_witness :
  fst (wait_for handshake 20 (sample_world [] late_peer)) = Raise TimeoutError /\
  trace (snd (wait_for handshake 20 (sample_world [] late_peer)))
    = [EvSend "HANDSHAKE" ∅] /\
  inbox (snd (wait_for handshake 20 (sample_world [] late_peer))) = late_peer /\
  now (snd (wait_for handshake 20 (sample_world [] late_peer))) = 20%nat.
Proof.
  apply (silent_or_late_peer_times_out (sample_world [] late_peer));
    [reflexivity | reflexivity |].
  right. exists 21%nat, (RMsg "HANDSHAKE" ∅), []. split; [reflexivity | lia].
Defined.

(** X8.  The deadline of 20 time units is one deadline for the whole
    exchange: when the echo comes in time but the PHASE 1 reply would come
    after the 20 units, counted from the start, the handshake ends in
    [TimeoutError] with the greeting and PHASE 1 sent, whatever the reply
    holds; no BREAK is sent. *)
Theorem deadline_covers_both_rounds w d1 d2 f1 item rest :
  writer_open w = true -> send_faults w = [] ->
  inbox w = (d1, RMsg "HANDSHAKE" f1) :: (d2, item) :: rest ->
  (d1 <= 20)%nat -> (20 < d1 + d2)%nat ->
  fst (wait_for handshake 20 w) = Raise TimeoutError /\
  trace (snd (wait_for handshake 20 w)) = trace w ++ greeting w /\
  inbox (snd (wait_for handshake 20 w)) = (d2, item) :: rest.
Proof.
  intros Hwo Hsf Hib Hd1 Hd2.
  run_greeting w d1 f1 Hwo Hsf Hib.
  assert (R2 : recv w3 = _)
    by (apply (recv_late w3 d2 item rest (now w + 20)%nat Hwo eq_refl eq_refl);
        cbn; lia).
  rewrite (bind_Raise _ _ _ _ _ (expected_Raise _ _ _ _ R2)).
  cbn. rewrite <- !app_assoc. repeat split.
Qed.

Lemma deadline_covers_both_rounds_witness :
  fst (wait_for handshake 20 (sample_world [] slow_peer)) = Raise TimeoutError /\
  trace (snd (wait_for handshake 20 (sample_world [] slow_peer)))
    = greeting (sample_world [] slow_peer) /\
  inbox (snd (wait_for handshake 20 (sample_world [] slow_peer)))
    = [(6%nat, RMsg "PHASE 1" (phase1_reply "okay" "1.0"))].
Proof.
  apply (deadline_covers_both_rounds (sample_world [] slow_peer) 15 6 ∅
           (RMsg "PHASE 1" (phase1_reply "okay" "1.0")) []);
    first [reflexivity | simpl; lia].
Defined.

(** X9.  The status is compared without regard to case, and when it is
    okay the version is not looked at: the handshake succeeds whatever the
    reply holds under [version], and also when it has no such field. *)
Theorem okay_status_skips_version_check w d1 d2 f1 f2 st rest :
  writer_open w = true -> send_faults w = [] ->
  inbox w = (d1, RMsg "HANDSHAKE" f1) :: (d2, RMsg "PHASE 1" f2) :: rest ->
  (d1 + d2 <= 20)%nat ->
  f2 !! "status" = Some (PStr st) -> lower st = "okay" ->
  fst (wait_for handshake 20 w) = Ret tt /\
  trace (snd (wait_for handshake 20 w))
    = trace w ++ greeting w ++ [EvSend "HANDSHAKE" ∅].
Proof.
  intros Hwo Hsf Hib Hd Hst Hok.
  destruct (handshake_exchange w d1 d2 f1 f2 st rest Hwo Hsf Hib Hd Hst)
    as (_ & _ & _ & _ & _ & H).
  unfold version_check in H. rewrite Hok in H. cbn in H.
  injection H as H1 H2. now split.
Qed.

Lemma okay_status_skips_version_check_witness :
  fst (wait_for handshake 20 (sample_world [] shouting_peer)) = Ret tt /\
  trace (snd (wait_for handshake 20 (sample_world [] shouting_peer)))
    = greeting (sample_world [] shouting_peer) ++ [EvSend "HANDSHAKE" ∅].
Proof.
  apply (okay_status_skips_version_check (sample_world [] shouting_peer) 1 1 ∅
           {[ "status" := PStr "OKAY" ]} "OKAY" []);
    first [reflexivity | simpl; lia].
Defined.

(** X10.  A PHASE 1 reply without a [status] field makes the handshake
    raise [KeyError], and one whose status is not a string makes it raise
    [AttributeError]; in both cases the peer is sent no BREAK. *)
Theorem malformed_status_raises w d1 d2 f1 f2 rest :
  writer_open w = true -> send_faults w = [] ->
  inbox w = (d1, RMsg "HANDSHAKE" f1) :: (d2, RMsg "PHASE 1" f2) :: rest ->
  (d1 + d2 <= 20)%nat ->
  (forall s, f2 !! "status" <> Some (PStr s)) ->
  fst (wait_for handshake 20 w)
    = Raise (match f2 !! "status" with
             | None => KeyError
             | Some _ => AttributeError
             end) /\
  trace (snd (wait_for handshake 20 w)) = trace w ++ greeting w.
Proof.
  intros Hwo Hsf Hib Hd Hst.
  run_greeting w d1 f1 Hwo Hsf Hib.
  assert (R2 : recv w3 = _)
    by (apply (recv_in_time w3 d2 "PHASE 1" f2 rest (now w + 20)%nat Hwo eq_refl eq_refl);
        cbn; lia).
  rewrite (bind_Ret _ _ _ _ _ (expected_ok _ _ _ _ R2)). clear R2.
  set (w4 := set_now _ _). cbn [snd]. unfold greeting.
  unfold bind, getitem, gets.
  destruct (f2 !! "status") as [[| b | z | s] |] eqn:E;
    try (exfalso; now apply (Hst s));
    cbn; rewrite <- !app_assoc; now split.
Qed.

Lemma malformed_status_raises_witness :
  (fst (wait_for handshake 20 (sample_world [] no_status_peer)) = Raise KeyError /\
   trace (snd (wait_for handshake 20 (sample_world [] no_status_peer)))
     = greeting (sample_world [] no_status_peer)) /\
  (fst (wait_for handshake 20 (sample_world [] int_status_peer)) = Raise AttributeError /\
   trace (snd (wait_for handshake 20 (sample_world [] int_status_peer)))
     = greeting (sample_world [] int_status_peer)).
Proof.
  split.
  - exact (malformed_status_raises (sample_world [] no_status_peer) 1 1 ∅
             {[ "version" := PStr "1.0" ]} [] eq_refl eq_refl eq_refl
             ltac:(simpl; lia) ltac:(intros s; vm_compute; discriminate)).
  - exact (malformed_status_raises (sample_world [] int_status_peer) 1 1 ∅
             {[ "status" := PInt 1 ]} [] eq_refl eq_refl eq_refl
             ltac:(simpl; lia) ltac:(intros s; vm_compute; discriminate)).
Defined.

(** X11.  A reply whose status is not okay and that has no [version]
    field makes the handshake raise [KeyError] from the version test
    itself: no BREAK is sent. *)
Theorem refused_status_without_version w d1 d2 f1 f2 st rest :
  writer_open w = true -> send_faults w = [] ->
  inbox w = (d1, RMsg "HANDSHAKE" f1) :: (d2, RMsg "PHASE 1" f2) :: rest ->
  (d1 + d2 <= 20)%nat ->
  f2 !! "status" = Some (PStr st) -> lower st <> "okay" ->
  f2 !! "version" = None ->
  fst (wait_for handshake 20 w) = Raise KeyError /\
  trace (snd (wait_for handshake 20 w)) = trace w ++ greeting w.
Proof.
  intros Hwo Hsf Hib Hd Hst Hno Hv.
  destruct (handshake_exchange w d1 d2 f1 f2 st rest Hwo Hsf Hib Hd Hst)
    as (_ & _ & _ & _ & _ & H).
  unfold version_check in H. rewrite Hv in H.
  destruct (String.eqb_spec (lower st) "okay"); [contradiction |].
  injection H as H1 H2. now split.
Qed.

Lemma refused_status_without_version_witness :
  fst (wait_for handshake 20 (sample_world [] no_version_peer)) = Raise KeyError /\
  trace (snd (wait_for handshake 20 (sample_world [] no_version_peer)))
    = greeting (sample_world [] no_version_peer).
Proof.
  apply (refused_status_without_version (sample_world [] no_version_peer) 1 1 ∅
           {[ "status" := PStr "no" ]} "no" []);
    first [reflexivity | simpl; lia | discriminate].
Defined.

(** ** More on [register] and error signaling *)

Lemma send_writer method kw : preserves writer_open (send method kw).
Proof.
  intros w. unfold send. destruct (writer_open w) eqn:E; simpl; [| exact E].
  now destruct (send_faults w) as [| [e |] rest].
Qed.

Lemma recv_writer : preserves writer_open recv.
Proof.
  intros w. unfold recv. destruct (writer_open w) eqn:E; simpl; [| exact E].
  destruct (inbox w) as [| [dt item] rest].
  - now destruct (deadline w).
  - destruct (deadline w) as [d |]; simpl.
    + destruct (Nat.ltb d (now w + dt)); [exact E | now destruct item].
    + now destruct item.
Qed.

Lemma expected_writer method : preserves writer_open (expected method).
Proof.
  apply preserves_bind; [apply recv_writer |]. intros r.
  destruct (String.eqb (fst r) method); [apply preserves_ret | apply preserves_raise].
Qed.

Lemma getitem_writer d key : preserves writer_open (getitem d key).
Proof.
  unfold getitem. destruct (d !! key); [apply preserves_ret | apply preserves_raise].
Qed.

Lemma str_lower_writer v : preserves writer_open (str_lower v).
Proof. destruct v; simpl; first [apply preserves_ret | apply preserves_raise]. Qed.

Lemma handshake_writer : preserves writer_open handshake.
Proof.
  unfold handshake.
  repeat first
    [ apply preserves_ret | apply preserves_raise | apply preserves_gets
    | apply recv_writer | apply expected_writer | apply send_writer
    | apply getitem_writer | apply str_lower_writer
    | apply preserves_bind; [| intros ?]
    | match goal with |- preserves _ (if ?b then _ else _) => destruct b end ].
Qed.

Lemma wait_for_writer {A} (coro : M A) timeout :
  preserves writer_open coro -> preserves writer_open (wait_for coro timeout).
Proof.
  intros H w. unfold wait_for.
  specialize (H (set_deadline (Some (now w + timeout)%nat) w)).
  destruct (coro _) as [r w']; simpl in *. exact H.
Qed.

(** X12.  After a failed handshake [register] does not pass on the
    exception of the handshake and does not close the connection: it calls
    the error hook with [HandshakeError], returns normally when the hook
    took the error on itself and raises [HandshakeError] when the hook
    answered [-1] or is not registered; the writer is left as it was and
    the session stays in its groups. *)
Theorem register_failure_keeps_connection w e w1 :
  wait_for handshake 20 w = (Raise e, w1) ->
  fst (register w)
    = (if py_eqb (hook_result w (EClass HandshakeError)) (PInt (-1))
       then Raise HandshakeError else Ret tt) /\
  writer_open (snd (register w)) = writer_open w /\
  group_members (snd (register w)) = group_members w /\
  occurrences is_writer_close (trace (snd (register w)))
    = occurrences is_writer_close (trace w).
Proof.
  intros H.
  assert (Hreg : register w = raise_error_code 2 w1)
    by (unfold register; now rewrite H).
  pose proof (wait_for_static handshake 20 handshake_static w) as Hs.
  pose proof (wait_for_writer handshake 20 handshake_writer w) as Hw.
  pose proof (wait_for_only unadmitted_event handshake 20 handshake_only w) as He.
  rewrite H in Hs, Hw, He. cbn [snd] in Hs, Hw, He.
  injection Hs as Hself Hsrv Hgm Hhook.
  assert (Hh : hook_result w1 (EClass HandshakeError)
               = hook_result w (EClass HandshakeError))
    by (unfold hook_result; now rewrite Hhook).
  rewrite Hreg, raise_error_code_eq.
  change (resolve_error 2) with (EClass HandshakeError). cbv zeta. rewrite Hh.
  assert (Hc : occurrences is_writer_close (trace w1)
               = occurrences is_writer_close (trace w)).
  { eapply extends_occurrences; [| exact He].
    intros ev Hev. apply (unadmitted_not_admission ev Hev). }
  destruct (py_eqb _ _); cbn [fst snd writer_open group_members trace emit];
    repeat split; auto; rewrite <- Hc; count_events.
Qed.

Lemma register_failure_keeps_connection_witness :
  fst (register (with_hook handling_hook (sample_world ["lobby"] late_peer))) = Ret tt /\
  writer_open (snd (register (with_hook handling_hook (sample_world ["lobby"] late_peer))))
    = true /\
  group_members (snd (register (with_hook handling_hook (sample_world ["lobby"] late_peer))))
    = {[ "lobby" := [1; 7] ]} /\
  occurrences is_writer_close
    (trace (snd (register (with_hook handling_hook (sample_world ["lobby"] late_peer)))))
    = 0%nat.
Proof.
  exact (register_failure_keeps_connection
           (with_hook handling_hook (sample_world ["lobby"] late_peer)) TimeoutError
           (snd (wait_for handshake 20
                   (with_hook handling_hook (sample_world ["lobby"] late_peer))))
           eq_refl).
Defined.

(** X13.  For a code that is not in [error_codes], the error hook is
    called with [-1]; when the hook answers [-1], or none is registered,
    the attempt to raise the integer [-1] surfaces as [TypeError], after
    the error was logged. *)
Theorem undefined_code_unhandled_is_type_error code w :
  code <> 2 -> code <> 6 ->
  hook_result w (EInt (-1)) = PInt (-1) ->
  raise_error_code code w =
  (Raise TypeError,
   emit (EvLog (LogRaised (id (self w)) (EInt (-1))))
        (emit (EvCallHook (HookError (EInt (-1)))) w)).
Proof.
  intros H2 H6 Hh.
  assert (Hr : resolve_error code = EInt (-1)).
  { unfold resolve_error.
    now rewrite (proj2 (error_codes_keys code) (conj H2 H6)). }
  rewrite raise_error_code_eq, Hr. cbv zeta. now rewrite Hh.
Qed.

Lemma undefined_code_unhandled_is_type_error_witness :
  raise_error_code 7 (sample_world [] []) =
  (Raise TypeError,
   emit (EvLog (LogRaised 1 (EInt (-1))))
        (emit (EvCallHook (HookError (EInt (-1)))) (sample_world [] []))).
Proof.
  apply (undefined_code_unhandled_is_type_error 7 (sample_world [] []));
    first [lia | reflexivity].
Defined.

(** X14.  When the registry has a handler for the method and the message
    has a field named [server] or [client], [process] logs the request and
    raises [TypeError]; the handler is not entered and the error hook is
    not called. *)
Theorem process_reserved_name_raises w method data f :
  Request (srv w) !! method = Some f ->
  is_Some (data !! "server") \/ is_Some (data !! "client") ->
  process method data w =
    (Raise TypeError, emit (EvLog (LogRequested (id (self w)) method)) w) /\
  occurrences is_invoke (trace (snd (process method data w)))
    = occurrences is_invoke (trace w) /\
  occurrences is_error_call (trace (snd (process method data w)))
    = occurrences is_error_call (trace w).
Proof.
  intros Hf Hd. rewrite (process_reserved_field w method data f Hf Hd).
  cbn [snd trace emit]. repeat split; count_events.
Qed.

Lemma process_reserved_name_raises_witness :
  process "foo" {[ "server" := PNone ]} (sample_world [] []) =
    (Raise TypeError, emit (EvLog (LogRequested 1 "foo")) (sample_world [] [])) /\
  occurrences is_invoke
    (trace (snd (process "foo" {[ "server" := PNone ]} (sample_world [] [])))) = 0%nat /\
  occurrences is_error_call
    (trace (snd (process "foo" {[ "server" := PNone ]} (sample_world [] [])))) = 0%nat.
Proof.
  apply (process_reserved_name_raises (sample_world [] []) "foo"
           {[ "server" := PNone ]} sample_foo eq_refl).
  left. exists PNone. reflexivity.
Defined.

(** ** More on [listen] and [kill] *)

Lemma recv_no_deadline w dt item rest :
  writer_open w = true -> deadline w = None -> inbox w = (dt, item) :: rest ->
  recv w =
  (match item with
   | RMsg method data => Ret (method, data)
   | RFail e => Raise e
   end, set_now (now w + dt) (set_inbox rest w)).
Proof.
  intros H1 H2 H3. unfold recv. rewrite H1, H2, H3. cbn [negb].
  now destruct item.
Qed.

(** The loop on a peer that sends [msgs] and then fails with [e]. *)
Lemma listen_loop_run msgs : forall n w d e rest,
  writer_open w = true -> deadline w = None ->
  inbox w = incoming msgs ++ (d, RFail e) :: rest ->
  (length msgs < n)%nat ->
  exists w',
    listen_loop n w = (if caught_by_listen e then Ret tt else Raise e, w') /\
    trace w' = trace w ++ dispatched msgs /\
    inbox w' = rest /\ static w' = static w /\
    writer_open w' = true /\ deadline w' = None.
Proof.
  induction msgs as [| [dt [method data]] msgs IH]; intros n w d e rest Hwo Hdl Hib Hn.
  - destruct n as [| n]; [simpl in Hn; lia |]. cbn [listen_loop].
    rewrite (recv_no_deadline w d (RFail e) rest Hwo Hdl Hib).
    exists (set_now (now w + d) (set_inbox rest w)).
    split; [now destruct (caught_by_listen e) |].
    cbn. rewrite app_nil_r. now repeat split.
  - destruct n as [| n]; [simpl in Hn; lia |]. cbn [listen_loop].
    rewrite (recv_no_deadline w dt (RMsg method data)
               (incoming msgs ++ (d, RFail e) :: rest) Hwo Hdl Hib).
    set (w1 := emit _ _).
    destruct (IH n w1 d e rest) as (w' & Hrun & Ht & Hi & Hs & Hw & Hd);
      [exact Hwo | exact Hdl | reflexivity | simpl in Hn; lia |].
    exists w'. split; [exact Hrun |]. split.
    + rewrite Ht. subst w1. cbn. now rewrite <- app_assoc.
    + now repeat split.
Qed.

Lemma length_incoming msgs : length (incoming msgs) = length msgs.
Proof. unfold incoming. now rewrite length_map. Qed.

Lemma listen_loop_run_full w msgs d e rest :
  writer_open w = true -> deadline w = None ->
  inbox w = incoming msgs ++ (d, RFail e) :: rest ->
  exists w',
    listen_loop (S (length (inbox w))) w
      = (if caught_by_listen e then Ret tt else Raise e, w') /\
    trace w' = trace w ++ dispatched msgs /\
    inbox w' = rest /\ static w' = static w /\
    writer_open w' = true /\ deadline w' = None.
Proof.
  intros Hwo Hdl Hib. apply (listen_loop_run msgs _ w d e rest Hwo Hdl Hib).
  rewrite Hib, length_app, length_incoming. lia.
Qed.

Lemma after_removals_inbox gs w : inbox (after_removals gs w) = inbox w.
Proof.
  revert w. induction gs as [| g gs IH]; intros w; [reflexivity |].
  rewrite after_removals_cons, IH. reflexivity.
Qed.

Lemma kill_inbox w : inbox (snd (kill w)) = inbox w.
Proof.
  destruct (decide (groups (self w) = [])) as [H | H].
  - now rewrite (kill_no_groups w H).
  - rewrite (kill_some_groups w H). cbn [snd].
    change (inbox (emit ?e2 (emit ?e1 ?x))) with (inbox x).
    now rewrite after_removals_inbox.
Qed.

Lemma filter_dispatched msgs :
  filter (fun e => is_dispatch e = true) (dispatched msgs) = dispatched msgs.
Proof.
  induction msgs as [| m msgs IH]; [reflexivity |].
  unfold dispatched in *. cbn [map].
  rewrite filter_cons_True by reflexivity. now rewrite IH.
Qed.

Lemma filter_teardown_dispatch evs :
  Forall teardown_event evs -> filter (fun e => is_dispatch e = true) evs = [].
Proof.
  induction 1 as [| e evs He _ IH]; [reflexivity |].
  rewrite filter_cons_False; [exact IH |].
  destruct e as [| | | | [|] | | |]; simpl in *; try discriminate; tauto.
Qed.

(** X15.  [listen] creates one [process] task for each message the peer
    sent before the first failure of [recv], in the order of arrival, and
    no other; what the peer sent after the failure is never read.  This
    holds whatever the failure is and whatever [kill] does afterwards. *)
Theorem listen_dispatches_in_order w msgs d e rest :
  writer_open w = true -> deadline w = None ->
  inbox w = incoming msgs ++ (d, RFail e) :: rest ->
  exists evs,
    trace (snd (listen w)) = trace w ++ evs /\
    filter (fun ev => is_dispatch ev = true) evs = dispatched msgs /\
    inbox (snd (listen w)) = rest.
Proof.
  intros Hwo Hdl Hib.
  destruct (listen_loop_run_full w msgs d e rest Hwo Hdl Hib)
    as (w' & Hrun & Ht & Hi & _).
  unfold listen. destruct (caught_by_listen e).
  - rewrite (bind_Ret _ _ _ _ _ Hrun).
    destruct (kill_only w') as (kevs & Hk & Hf).
    exists (dispatched msgs ++ kevs). split; [| split].
    + now rewrite Hk, Ht, app_assoc.
    + rewrite filter_app, filter_dispatched, (filter_teardown_dispatch kevs Hf).
      apply app_nil_r.
    + now rewrite kill_inbox.
  - rewrite (bind_Raise _ _ _ _ _ Hrun). exists (dispatched msgs).
    split; [exact Ht |]. split; [apply filter_dispatched | exact Hi].
Qed.

Lemma listen_dispatches_in_order_witness :
  exists evs,
    trace (snd (listen (sample_world ["lobby"]
                          [(5%nat, RMsg "foo" ∅); (5%nat, RMsg "bar" ∅);
                           (1%nat, RFail ValueError); (1%nat, RMsg "foo" ∅)])))
    = [] ++ evs /\
    filter (fun ev => is_dispatch ev = true) evs
    = [EvCreateTask (TaskProcess "foo" ∅); EvCreateTask (TaskProcess "bar" ∅)] /\
    inbox (snd (listen (sample_world ["lobby"]
                          [(5%nat, RMsg "foo" ∅); (5%nat, RMsg "bar" ∅);
                           (1%nat, RFail ValueError); (1%nat, RMsg "foo" ∅)])))
    = [(1%nat, RMsg "foo" ∅)].
Proof.
  exact (listen_dispatches_in_order
           (sample_world ["lobby"]
              [(5%nat, RMsg "foo" ∅); (5%nat, RMsg "bar" ∅);
               (1%nat, RFail ValueError); (1%nat, RMsg "foo" ∅)])
           [(5%nat, ("foo", ∅)); (5%nat, ("bar", ∅))] 1 ValueError
           [(1%nat, RMsg "foo" ∅)] eq_refl eq_refl eq_refl).
Defined.

(** X16.  When [recv] fails with an exception other than [ValueError] and
    [ConnectionResetError], [listen] ends with that exception and there is
    no teardown: the writer stays open, the session stays in its groups,
    no departure is logged and no [left] hook is scheduled. *)
Theorem listen_other_failure_skips_teardown w msgs d e rest :
  writer_open w = true -> deadline w = None ->
  inbox w = incoming msgs ++ (d, RFail e) :: rest ->
  e <> ValueError -> e <> ConnectionResetError ->
  fst (listen w) = Raise e /\
  trace (snd (listen w)) = trace w ++ dispatched msgs /\
  writer_open (snd (listen w)) = true /\
  group_members (snd (listen w)) = group_members w.
Proof.
  intros Hwo Hdl Hib H1 H2.
  destruct (listen_loop_run_full w msgs d e rest Hwo Hdl Hib)
    as (w' & Hrun & Ht & _ & Hs & Hw & _).
  assert (Hc : caught_by_listen e = false).
  { destruct (caught_by_listen e) eqn:E; [| reflexivity].
    apply caught_by_listen_iff in E. tauto. }
  rewrite Hc in Hrun. unfold listen. rewrite (bind_Raise _ _ _ _ _ Hrun).
  cbn [fst snd]. injection Hs as _ _ Hg _. now repeat split.
Qed.

Lemma listen_other_failure_skips_teardown_witness :
  fst (listen (sample_world ["lobby"]
                 [(5%nat, RMsg "foo" ∅); (1%nat, RFail (OtherError "IncompleteReadError"))]))
    = Raise (OtherError "IncompleteReadError") /\
  trace (snd (listen (sample_world ["lobby"]
                 [(5%nat, RMsg "foo" ∅); (1%nat, RFail (OtherError "IncompleteReadError"))])))
    = [EvCreateTask (TaskProcess "foo" ∅)] /\
  writer_open (snd (listen (sample_world ["lobby"]
                 [(5%nat, RMsg "foo" ∅); (1%nat, RFail (OtherError "IncompleteReadError"))])))
    = true /\
  group_members (snd (listen (sample_world ["lobby"]
                 [(5%nat, RMsg "foo" ∅); (1%nat, RFail (OtherError "IncompleteReadError"))])))
    = {[ "lobby" := [1; 7] ]}.
Proof.
  exact (listen_other_failure_skips_teardown
           (sample_world ["lobby"]
              [(5%nat, RMsg "foo" ∅); (1%nat, RFail (OtherError "IncompleteReadError"))])
           [(5%nat, ("foo", ∅))] 1 (OtherError "IncompleteReadError") []
           eq_refl eq_refl eq_refl ltac:(discriminate) ltac:(discriminate)).
Defined.

Lemma remove_member_twice c members :
  remove_member c (remove_member c members) = remove_member c members.
Proof.
  unfold remove_member. rewrite list_filter_filter.
  apply list_filter_iff. tauto.
Qed.

Lemma after_removals_lookup gs : forall w g,
  group_members (after_removals gs w) !! g =
  if bool_decide (g ∈ gs)
  then remove_member (id (self w)) <$> group_members w !! g
  else group_members w !! g.
Proof.
  induction gs as [| g' gs IH]; intros w g.
  - rewrite bool_decide_eq_false_2; [reflexivity | apply not_elem_of_nil].
  - rewrite after_removals_cons, IH, Group_remove_eq. cbn [snd].
    change (group_members (emit ?e (set_group_members ?m ?x))) with m.
    change (self (emit ?e (set_group_members ?m ?x))) with (self x).
    destruct (decide (g' = g)) as [-> | Hne].
    + rewrite lookup_alter_eq.
      rewrite (bool_decide_eq_true_2 (g ∈ g :: gs)) by apply list_elem_of_here.
      destruct (bool_decide (g ∈ gs)); [| reflexivity].
      destruct (group_members w !! g) as [members |]; [| reflexivity].
      cbn. now rewrite remove_member_twice.
    + rewrite lookup_alter_ne by exact Hne.
      destruct (bool_decide (g ∈ gs)) eqn:Hin.
      * apply bool_decide_eq_true_1 in Hin.
        rewrite bool_decide_eq_true_2; [reflexivity | now apply list_elem_of_further].
      * apply bool_decide_eq_false_1 in Hin.
        rewrite bool_decide_eq_false_2; [reflexivity |].
        intros [? | ?]%elem_of_cons; congruence.
Qed.

Lemma kill_members_lookup w g :
  groups (self w) <> [] ->
  group_members (snd (kill w)) !! g = members_after_kill w g.
Proof.
  intros H. rewrite (kill_some_groups w H). cbn [snd].
  change (group_members (emit ?e2 (emit ?e1 ?x))) with (group_members x).
  rewrite after_removals_lookup. reflexivity.
Qed.

Lemma kill_self w : self (snd (kill w)) = self w.
Proof.
  destruct (decide (groups (self w) = [])) as [H | H].
  - now rewrite (kill_no_groups w H).
  - rewrite (kill_some_groups w H). cbn [snd].
    change (self (emit ?e2 (emit ?e1 ?x))) with (self x).
    now rewrite after_removals_self.
Qed.

(** X17.  [kill] on a session with at least one group changes the
    membership of the groups listed in [self.groups] and of no other group;
    in a listed group it takes out the session and leaves every other
    member in place. *)
Theorem kill_removes_only_the_session w :
  groups (self w) <> [] ->
  (forall g, group_members (snd (kill w)) !! g = members_after_kill w g) /\
  (forall g, g ∉ groups (self w) ->
             group_members (snd (kill w)) !! g = group_members w !! g) /\
  (forall g before, group_members w !! g = Some before ->
     exists after,
       group_members (snd (kill w)) !! g = Some after /\
       forall c, c <> id (self w) -> (c ∈ after <-> c ∈ before)).
Proof.
  intros H. split; [intros g; now apply kill_members_lookup |]. split.
  - intros g Hg. rewrite kill_members_lookup by exact H.
    unfold members_after_kill. now rewrite bool_decide_eq_false_2.
  - intros g before Hb. rewrite kill_members_lookup by exact H.
    unfold members_after_kill. rewrite Hb.
    destruct (bool_decide (g ∈ groups (self w))); cbn.
    + eexists. split; [reflexivity |]. intros c Hc.
      unfold remove_member. rewrite list_elem_of_filter. tauto.
    + eexists. split; [reflexivity |]. tauto.
Qed.

Lemma kill_removes_only_the_session_witness :
  group_members (snd (kill (sample_world ["lobby"] []))) !! "lobby" = Some [7].
Proof.
  rewrite (proj1 (kill_removes_only_the_session (sample_world ["lobby"] [])
                    ltac:(discriminate)) "lobby").
  reflexivity.
Defined.

(** X18.  The memberships [kill] leaves do not depend on the order of
    [self.groups], nor does its outcome: [asyncio.wait] may run the
    removals in any order. *)
Theorem kill_order_independent w gs gs' :
  gs ≡ₚ gs' ->
  fst (kill (set_groups gs w)) = fst (kill (set_groups gs' w)) /\
  group_members (snd (kill (set_groups gs w)))
    = group_members (snd (kill (set_groups gs' w))).
Proof.
  intros Hp. destruct gs as [| g gs].
  - apply Permutation_nil_l in Hp. subst gs'. split; reflexivity.
  - assert (Hne : g :: gs <> []) by discriminate.
    assert (Hne' : gs' <> []).
    { intros ->. apply Permutation_nil_r in Hp. discriminate. }
    split.
    + rewrite (kill_some_groups (set_groups (g :: gs) w) Hne).
      now rewrite (kill_some_groups (set_groups gs' w) Hne').
    + apply map_eq. intros k.
      rewrite (kill_members_lookup (set_groups (g :: gs) w) k Hne).
      rewrite (kill_members_lookup (set_groups gs' w) k Hne').
      unfold members_after_kill. cbn [self set_groups groups id group_members].
      destruct (bool_decide (k ∈ g :: gs)) eqn:E.
      * apply bool_decide_eq_true_1 in E. rewrite Hp in E.
        now rewrite bool_decide_eq_true_2.
      * apply bool_decide_eq_false_1 in E. rewrite Hp in E.
        now rewrite bool_decide_eq_false_2.
Qed.

Lemma kill_order_independent_witness :
  fst (kill (set_groups ["lobby"; "staff"] (sample_world [] [])))
    = fst (kill (set_groups ["staff"; "lobby"] (sample_world [] []))) /\
  group_members (snd (kill (set_groups ["lobby"; "staff"] (sample_world [] []))))
    = group_members (snd (kill (set_groups ["staff"; "lobby"] (sample_world [] [])))).
Proof.
  apply (kill_order_independent (sample_world [] []) ["lobby"; "staff"] ["staff"; "lobby"]).
  apply perm_swap.
Defined.



(** X21.  An exception raised by a registered handler leaves [process] as
    it is: the request was logged and the handler entered once, and the
    error hook is not called, so no error code is signaled for it. *)
Theorem handler_exception_bypasses_error_hook w method data f e :
  Request (srv w) !! method = Some f ->
  data !! "server" = None -> data !! "client" = None ->
  f data = Entered (Raise e) ->
  fst (process method data w) = Raise e /\
  occurrences is_invoke (trace (snd (process method data w)))
    = S (occurrences is_invoke (trace w)) /\
  occurrences is_error_call (trace (snd (process method data w)))
    = occurrences is_error_call (trace w).
Proof.
  intros Hf Hs Hc He.
  rewrite (process_entered w method data f (Raise e)
             (getattr_registered _ _ _ Hf) Hs Hc He).
  cbn [fst snd trace emit]. repeat split; count_events.
Qed.

Lemma handler_exception_bypasses_error_hook_witness :
  fst (process "div" ∅ failing_handler_world) = Raise (OtherError "ZeroDivisionError") /\
  occurrences is_invoke (trace (snd (process "div" ∅ failing_handler_world))) = 1%nat /\
  occurrences is_error_call (trace (snd (process "div" ∅ failing_handler_world))) = 0%nat.
Proof.
  exact (handler_exception_bypasses_error_hook failing_handler_world "div" ∅
           (fun _ => Entered (Raise (OtherError "ZeroDivisionError")))
           (OtherError "ZeroDivisionError") eq_refl eq_refl eq_refl eq_refl).
Defined.

(** ** The dispatch loop on a session without a group, and the body of [kill] *)

(** With at least one group, [listen] returns normally when the loop is
    left by [break]. *)
Lemma listen_with_groups_returns w msgs d e rest :
  writer_open w = true -> deadline w = None ->
  inbox w = incoming msgs ++ (d, RFail e) :: rest ->
  caught_by_listen e = true ->
  groups (self w) <> [] ->
  fst (listen w) = Ret tt.
Proof.
  intros Hwo Hdl Hib Hc Hg.
  destruct (listen_loop_run_full w msgs d e rest Hwo Hdl Hib)
    as (w' & Hrun & _ & _ & Hs & _).
  rewrite Hc in Hrun. unfold listen. rewrite (bind_Ret _ _ _ _ _ Hrun).
  injection Hs as Hself _ _ _.
  rewrite kill_some_groups by now rewrite Hself. reflexivity.
Qed.

Lemma occurrences_dispatched p msgs :
  (forall m a, p (EvCreateTask (TaskProcess m a)) = false) ->
  occurrences p (dispatched msgs) = 0%nat.
Proof.
  intros Hp. apply occurrences_none. unfold dispatched.
  induction msgs as [| m msgs IH]; constructor; [apply Hp | exact IH].
Qed.

(** C5 (the code departs from the claim).  The claim: when [recv] fails
    with the framing or connection-closed failure, the dispatch loop
    terminates without raising further and concludes by invoking [kill]
    exactly once.  On a session whose [groups] list is empty the loop is
    left by [break] and [kill] is invoked once, the writer is closed once,
    but [listen] does not end quietly: it raises [ValueError], which comes
    from [asyncio.wait] on the empty list inside [kill]; the departure is
    not logged and the [left] hook is not scheduled.  (With at least one
    group [listen] returns normally: [listen_with_groups_returns].) *)
Theorem listen_groupless_session_raises w msgs d e rest :
  writer_open w = true -> deadline w = None ->
  inbox w = incoming msgs ++ (d, RFail e) :: rest ->
  caught_by_listen e = true ->
  groups (self w) = [] ->
  fst (listen w) = Raise ValueError /\
  trace (snd (listen w)) = trace w ++ dispatched msgs ++ [EvWriterClose] /\
  occurrences is_writer_close (trace (snd (listen w)))
    = S (occurrences is_writer_close (trace w)) /\
  occurrences is_left (trace (snd (listen w)))
    = occurrences is_left (trace w).
Proof.
  intros Hwo Hdl Hib Hc Hg.
  destruct (listen_loop_run_full w msgs d e rest Hwo Hdl Hib)
    as (w' & Hrun & Ht & _ & Hs & _).
  rewrite Hc in Hrun. unfold listen. rewrite (bind_Ret _ _ _ _ _ Hrun).
  injection Hs as Hself _ _ _.
  rewrite kill_no_groups by now rewrite Hself.
  cbn [fst snd trace emit set_writer_open]. rewrite Ht, <- app_assoc.
  repeat split;
    rewrite !occurrences_app, occurrences_dispatched by reflexivity;
    count_events.
Qed.

Lemma listen_groupless_session_raises_witness :
  fst (listen (sample_world []
                 [(5%nat, RMsg "foo" ∅); (1%nat, RFail ConnectionResetError)]))
    = Raise ValueError /\
  trace (snd (listen (sample_world []
                 [(5%nat, RMsg "foo" ∅); (1%nat, RFail ConnectionResetError)])))
    = [] ++ dispatched [(5%nat, ("foo", ∅))] ++ [EvWriterClose] /\
  occurrences is_writer_close
    (trace (snd (listen (sample_world []
                 [(5%nat, RMsg "foo" ∅); (1%nat, RFail ConnectionResetError)]))))
    = 1%nat /\
  occurrences is_left
    (trace (snd (listen (sample_world []
                 [(5%nat, RMsg "foo" ∅); (1%nat, RFail ConnectionResetError)]))))
    = 0%nat.
Proof.
  exact (listen_groupless_session_raises
           (sample_world [] [(5%nat, RMsg "foo" ∅); (1%nat, RFail ConnectionResetError)])
           [(5%nat, ("foo", ∅))] 1 ConnectionResetError []
           eq_refl eq_refl eq_refl eq_refl eq_refl).
Defined.

Lemma kill_with_Group_remove : kill_with Group_remove = kill.
Proof. reflexivity. Qed.

Lemma run_all_preserves {B} (f : world -> B) (fs : list (M unit)) :
  Forall (preserves f) fs -> preserves f (run_all fs).
Proof.
  induction 1 as [| m fs Hm _ IH]; intros w; [reflexivity |].
  cbn [run_all]. specialize (Hm w).
  destruct (m w) as [[a | e |] w1]; cbn [snd] in *;
    first [now rewrite IH | exact Hm].
Qed.

Lemma Group_remove_self g : preserves self (Group_remove g).
Proof. intros w. reflexivity. Qed.

(** C10 as the claim states it fails for group objects whose [remove] also
    edits the list of the session: after [kill] the list is empty. *)
Lemma kill_unlisting_group_changes_groups :
  groups (self (sample_world ["lobby"] [])) = ["lobby"] /\
  fst (kill_with Group_remove_unlisting (sample_world ["lobby"] [])) = Ret tt /\
  groups (self (snd (kill_with Group_remove_unlisting (sample_world ["lobby"] []))))
    = [].
Proof. vm_compute. repeat split; reflexivity. Qed.

(** C10, amended.  The statements of [kill] itself never change the
    session's [groups] attribute, nor anything else of the session: after
    [kill], whatever its outcome, the session is as the awaited [remove]
    calls left it, and these are one call per entry of the list as it was
    when [kill] began.  So the list has exactly the entries it had before
    whenever [remove] leaves the session alone, as [Group_remove] does. *)
Theorem kill_body_keeps_groups_attribute (remove : string -> M unit) w :
  self (snd (kill_with remove w))
    = self (snd (run_all (map remove (groups (self w))) (snd (close w)))) /\
  ((forall g, preserves self (remove g)) ->
   self (snd (kill_with remove w)) = self w /\
   groups (self (snd (kill_with remove w))) = groups (self w)).
Proof.
  assert (H1 : self (snd (kill_with remove w))
    = self (snd (run_all (map remove (groups (self w))) (snd (close w))))).
  { unfold kill_with. rewrite (bind_Ret _ _ _ _ _ (close_eq w)), bind_gets.
    cbn [snd]. set (w0 := emit EvWriterClose (set_writer_open false w)).
    change (groups (self w0)) with (groups (self w)).
    change (snd (close w)) with w0.
    destruct (groups (self w)) as [| g gs]; [reflexivity |].
    unfold asyncio_wait. cbn [map]. unfold bind at 1.
    destruct (run_all (remove g :: map remove gs) w0) as [[a | e |] w1];
      reflexivity. }
  split; [exact H1 |]. intros Hr.
  assert (H2 : self (snd (kill_with remove w)) = self w).
  { rewrite H1, run_all_preserves; [reflexivity |].
    apply Forall_map, Forall_forall. intros g _. apply Hr. }
  split; [exact H2 | now rewrite H2].
Qed.

Lemma kill_body_keeps_groups_attribute_witness :
  self (snd (kill (sample_world ["lobby"] []))) = self (sample_world ["lobby"] []) /\
  groups (self (snd (kill (sample_world ["lobby"] [])))) = ["lobby"].
Proof.
  exact (proj2 (kill_body_keeps_groups_attribute Group_remove
                  (sample_world ["lobby"] []))
               Group_remove_self).
Defined.

(** A status written with KELVIN SIGN lowers to okay, as in Python. *)
Example lower_kelvin_sign :
  lower kelvin_okay = "okay" /\ lower "OkAy" = "okay" /\ lower "no" = "no".
Proof. vm_compute. repeat split; reflexivity. Qed.

(** With that status and no [version] field the handshake succeeds. *)
Example kelvin_status_accepted :
  let peer := [(1%nat, RMsg "HANDSHAKE" ∅);
               (1%nat, RMsg "PHASE 1" {[ "status" := PStr kelvin_okay ]})] in
  fst (wait_for handshake 20 (sample_world [] peer)) = Ret tt.
Proof. vm_compute. reflexivity. Qed.
